(** * tfparse: the block-to-document converter of [gotfparse/pkg/converter]

    A shallow embedding of [converter.go] and the properties its
    specification states about it.

    Conventions of the embedding.
    - Go [int] and [int64] are 64-bit two's complement integers, carried
      as [Z] with the wrap-around written out ([wrap64]).
    - Go maps are [gmap]s.  A [range] over a Go map visits the keys in an
      order the language leaves open; wherever the order is observable it
      is drawn from a [MapOrder], an arbitrary enumeration of the keys.
    - A Go panic is the [Panic] result; the converter never recovers one.
    - Blocks, attributes and typed values belong to the parser library;
      they are records holding what the accessor methods return. *)

From Stdlib Require Import ZArith Lia Floats.SpecFloat.
From Equations Require Import Equations.
From stdpp Require Import gmap strings list fin_maps.

Set Warnings "-register-all".
Local Open Scope Z_scope.

(** ** Machine integers *)

Definition min_int64 : Z := - 2 ^ 63.
Definition max_int64 : Z := 2 ^ 63 - 1.

(** The value a 64-bit signed register holds after computing [z]. *)
Definition wrap64 (z : Z) : Z := (z + 2 ^ 63) mod 2 ^ 64 - 2 ^ 63.

(** ** Results and panics *)

Inductive result (A : Type) : Type :=
| Ok (a : A)
| Panic (msg : string).
Arguments Ok {A} a.
Arguments Panic {A} msg.

Definition bind {A B} (r : result A) (k : A → result B) : result B :=
  match r with
  | Ok a => k a
  | Panic msg => Panic msg
  end.

Notation "x ←? e ;; k" := (bind e (λ x, k))
  (at level 100, e at next level, k at level 200, right associativity).

Fixpoint foldM {A S} (step : S → A → result S) (s : S) (l : list A) : result S :=
  match l with
  | [] => Ok s
  | x :: rest => s' ←? step s x ;; foldM step s' rest
  end.

Fixpoint mapM {A B} (f : A → result B) (l : list A) : result (list B) :=
  match l with
  | [] => Ok []
  | x :: rest => y ←? f x ;; ys ←? mapM f rest ;; Ok (y :: ys)
  end.

(** ** Iteration order of Go maps *)

Record MapOrder := {
  range_keys : ∀ V : Type, gmap string V → list string;
  range_keys_perm : ∀ V (m : gmap string V), range_keys V m ≡ₚ (map_to_list m).*1
}.
Arguments range_keys _ {V} _.

(** ** Arbitrary-precision numbers ([math/big.Float])

    A finite [big.Float] is [m * 2^e]; the two infinities are values too.
    [IsInt], [Int64] and [Float64] follow the documentation of the
    methods of the same name. *)

Inductive bigFloat :=
| BigFinite (m e : Z)
| BigInf (negative : bool).

(** [x.IsInt()]: the infinities are not integers. *)
Definition IsInt (x : bigFloat) : bool :=
  match x with
  | BigFinite m e => if 0 <=? e then true else m mod 2 ^ (- e) =? 0
  | BigInf _ => false
  end.

(** [x] truncated towards zero; [None] for the infinities. *)
Definition truncate (x : bigFloat) : option Z :=
  match x with
  | BigFinite m e => Some (if 0 <=? e then m * 2 ^ e else m ÷ 2 ^ (- e))
  | BigInf _ => None
  end.

(** [x.Int64()], first component: the truncation when it fits, and the
    nearest bound of the 64-bit range when it does not. *)
Definition Int64 (x : bigFloat) : Z :=
  match truncate x with
  | Some z =>
      if z <? min_int64 then min_int64
      else if max_int64 <? z then max_int64
      else z
  | None => match x with BigInf true => min_int64 | _ => max_int64 end
  end.

(** [x.Float64()], first component: the nearest binary64 number, ties to
    even, with overflow to an infinity. *)
Definition Float64 (x : bigFloat) : spec_float :=
  match x with
  | BigFinite m e => binary_normalize 53 1024 m e (m <? 0)
  | BigInf negative => S754_infinity negative
  end.

(** ** Typed values ([cty.Value]) *)

Inductive ctyValue :=
| CtyNull
| CtyUnknown
| CtyString (s : string)
| CtyNumber (n : bigFloat)
| CtyBool (b : bool)
| CtyList (items : list ctyValue)               (* list and tuple types *)
| CtyObject (members : list (string * ctyValue)) (* object and map types *)
| CtySet (items : list ctyValue)
| CtyCapsule.                                    (* any other, opaque type *)

(** [val.IsNull()]. *)
Definition IsNull (val : ctyValue) : bool :=
  match val with CtyNull => true | _ => false end.

(** [val.AsValueSlice()]: the elements of a collection; cty panics on a
    value that cannot be iterated. *)
Definition AsValueSlice (val : ctyValue) : result (list ctyValue) :=
  match val with
  | CtyList items | CtySet items => Ok items
  | CtyObject members => Ok members.*2
  | _ => Panic "value cannot be iterated"
  end.

(** ** Native values (what the JSON container stores) *)

Inductive native :=
| NNull
| NString (s : string)
| NInt (i : Z)
| NFloat (f : spec_float)
| NBool (b : bool)
| NList (items : list native)
| NMap (m : gmap string native).

(** ** Blocks and attributes of the parser library *)

Record Range := {
  GetLocalFilename : string;
  GetStartLine : Z;
  GetEndLine : Z
}.

Record Metadata := {
  GetRange : Range;
  MetadataString : string   (* [GetMetadata().String()] *)
}.

Record Attribute := {
  Name : string;
  Value : ctyValue;
  GetRawValue : native;
  VarTypeFriendlyName : string;   (* [DecodeVarType()], [FriendlyName()] *)
  AllReferences : list string     (* each reference's [String()] *)
}.

Inductive Block := mkBlock {
  Type_ : string;
  TypeLabel : string;
  NameLabel : string;
  ID : string;
  Reference : string;             (* [Reference().String()] *)
  LocalName : string;
  GetAttributes : list Attribute;
  AllBlocks : list Block;
  GetMetadata : Metadata;
  moduleBlock : option Block
}.

Record Module := { GetBlocks : list Block }.

(** [b.GetAttribute(name)]; a missing attribute is Go's nil. *)
Definition GetAttribute (b : Block) (name : string) : option Attribute :=
  snd <$> list_find (λ a, Name a = name) (GetAttributes b).

(** [attr.Value()], which answers the null value on a nil attribute. *)
Definition ValueOf (attr : option Attribute) : ctyValue :=
  match attr with Some a => Value a | None => CtyNull end.

(** ** stringSet

    [type stringSet map[string]bool]: Add sets a string's flag, Entries
    lists the strings.  Entries makes its slice with the length of the
    set and appends to it, so the strings follow as many empty ones. *)

Definition Add (s : gmap string bool) (str : string) : gmap string bool :=
  if negb (default false (s !! str)) then <[str := true]> s else s.

Definition Entries (order : MapOrder) (s : gmap string bool) : list string :=
  let entries := replicate (size s) "" in
  foldl (λ entries entry, entries ++ [entry]) entries (range_keys order s).

(** ** The converter

    Of the fields of the converter only the modules and the reference
    index take part in the conversion; the file path, the parser options
    and the unused counters are left out. *)

Record terraformConverter := {
  modules : list Module;
  blocksByReference : gmap string Block
}.

(** ** convertCtyToNativeValue

    convertCtyToNativeValue converts a typed value to a value the JSON
    container can store; the flag tells whether it could.  The members of
    an object are visited in the order of the list: the result does not
    depend on it. *)

Fixpoint convertCtyToNativeValue (val : ctyValue) : native * bool :=
  match val with
  | CtyNull => (NNull, true)
  | CtyUnknown => (NNull, true)
  | CtyObject members =>
      let fix members_loop (l : list (string * ctyValue)) (interfaceMap : gmap string native)
          : native * bool :=
        match l with
        | [] => (NMap interfaceMap, true)
        | (key, v) :: rest =>
            let (raw, ok) := convertCtyToNativeValue v in
            if ok then members_loop rest (<[key := raw]> interfaceMap)
            else (NNull, false)
        end in
      members_loop members ∅
  | CtyList items =>
      let fix items_loop (l : list ctyValue) (interfaceSlice : list native)
          : native * bool :=
        match l with
        | [] => (NList interfaceSlice, true)
        | item :: rest =>
            let (raw, ok) := convertCtyToNativeValue item in
            if ok then items_loop rest (interfaceSlice ++ [raw])
            else (NNull, false)
        end in
      items_loop items []
  | CtyString s => (NString s, true)
  | CtyNumber num =>
      if IsInt num then (NInt (Int64 num), true)
      else (NFloat (Float64 num), true)
  | CtyBool b => (NBool b, true)
  | CtySet _ | CtyCapsule => (NNull, false)
  end.

(** getAttributeValue returns the value for the attribute. *)
Definition getAttributeValue (a : Attribute) : native :=
  let (raw, ok) := convertCtyToNativeValue (Value a) in
  if ok then raw else GetRawValue a.

(** ** getChildBlocks

    getChildBlocks iterates over all descendants of a block and returns a
    filtered list of the unique children: the [dynamic] templates are
    skipped, and of the blocks they create the copies past the expected
    count are dropped. *)

Definition getForEachCount (b : Block) : result Z :=
  let value := ValueOf (GetAttribute b "for_each") in
  if IsNull value then Ok 0
  else slice ←? AsValueSlice value ;; Ok (Z.of_nat (length slice)).

Record dedupState := {
  expectedContentBlocks : Z;
  prevMaxEnd : Z;
  children : list Block
}.

Definition getChildBlocks_step (st : dedupState) (block : Block) : result dedupState :=
  if decide (Type_ block = "dynamic") then
    forEachCount ←? getForEachCount block ;;
    Ok {| expectedContentBlocks := wrap64 (expectedContentBlocks st + forEachCount);
          prevMaxEnd := prevMaxEnd st;
          children := children st |}
  else
    let blockRange := GetRange (GetMetadata block) in
    let start := GetStartLine blockRange in
    if prevMaxEnd st <=? start then
      Ok {| expectedContentBlocks := expectedContentBlocks st;
            prevMaxEnd := GetEndLine blockRange;
            children := children st ++ [block] |}
    else
      let expected := wrap64 (expectedContentBlocks st - 1) in
      if 0 <? expected then
        Ok {| expectedContentBlocks := expected;
              prevMaxEnd := prevMaxEnd st;
              children := children st ++ [block] |}
      else
        Ok {| expectedContentBlocks := expected;
              prevMaxEnd := prevMaxEnd st;
              children := children st |}.

Definition getChildBlocks (b : Block) : result (list Block) :=
  st ←? foldM getChildBlocks_step
          {| expectedContentBlocks := 0; prevMaxEnd := 0; children := [] |}
          (AllBlocks b) ;;
  Ok (children st).

(** ** newBlockCollector

    The closures [add] and [dump] share the map [collection]; here each
    takes it as an argument.  [dump] flattens the lists that hold a single
    item. *)

(** getList gets a slice from [obj], storing an empty one under a fresh key. *)
Definition getList (obj : gmap string (list native)) (key : string)
    : list native * gmap string (list native) :=
  match obj !! key with
  | Some value => (value, obj)
  | None => ([], <[key := []]> obj)
  end.

Definition add (collection : gmap string (list native)) (key : string) (value : native)
    : gmap string (list native) :=
  let (list, collection) := getList collection key in
  <[key := list ++ [value]]> collection.

Definition dump (collection : gmap string (list native)) : gmap string native :=
  (λ items, match items with
            | [item] => item
            | _ => NList items
            end) <$> collection.

(** ** getAttributeRefsMeta *)

(** The descriptor of a referenced block. *)
Definition refDescriptor (block : Block) : gmap string native :=
  {[ "id" := NString (ID block);
     "label" := NString (TypeLabel block);
     "name" := NString (NameLabel block) ]}.

Definition getAttributeRefsMeta (t : terraformConverter) (refs : list string)
    : list (gmap string native) :=
  foldl (λ refsMeta ref,
           match blocksByReference t !! ref with
           | Some block => refsMeta ++ [refDescriptor block]
           | None => refsMeta
           end) [] refs.

(** ** buildBlock *)

(** The attribute loop of buildBlock: one iteration. *)
Definition buildBlock_attribute (b : Block)
    (acc : gmap string native * gmap string bool) (a : Attribute)
    : gmap string native * gmap string bool :=
  let (obj, allRefs) := acc in
  let attrName := Name a in
  let obj :=
    if decide (Type_ b = "variable" ∧ attrName = "type")
    then <[attrName := NString (VarTypeFriendlyName a)]> obj
    else <[attrName := getAttributeValue a]> obj in
  (obj, foldl Add allRefs (AllReferences a)).

(** What buildBlock does once its children are built: [built] pairs each
    child's type with the document built for it. *)
Definition buildBlock_body (order : MapOrder) (t : terraformConverter) (b : Block)
    (built : list (string * gmap string native)) : gmap string native :=
  let collection := foldl (λ c kv, add c kv.1 (NMap kv.2)) ∅ built in
  let grouped := dump collection in
  let obj : gmap string native := grouped ∪ ∅ in
  let (obj, allRefs) := foldl (buildBlock_attribute b) (obj, ∅) (GetAttributes b) in
  let obj := if decide (ID b = "") then obj else <["id" := NString (ID b)]> obj in
  let r := GetRange (GetMetadata b) in
  let meta : gmap string native :=
    {[ "filename" := NString (GetLocalFilename r);
       "line_start" := NInt (GetStartLine r);
       "line_end" := NInt (GetEndLine r) ]} in
  let refs := getAttributeRefsMeta t (Entries order allRefs) in
  let meta := if decide (0 < length refs)%nat
              then <["references" := NList (NMap <$> refs)]> meta else meta in
  let meta := if decide (TypeLabel b = "") then meta
              else <["label" := NString (TypeLabel b)]> meta in
  <["__tfmeta" := NMap meta]> obj.

(** The number of blocks in the tree of a block. *)
Fixpoint Block_size (b : Block) : nat :=
  S (list_sum (map Block_size (AllBlocks b))).

(** [mapM] for a function that is given the membership of its argument. *)
Fixpoint mapM_in {A B} (l : list A) : (∀ x, x ∈ l → result B) → result (list B) :=
  match l with
  | [] => λ _, Ok []
  | x :: rest => λ f,
      y ←? f x (list_elem_of_here x rest) ;;
      ys ←? mapM_in rest (λ z Hz, f z (list_elem_of_further z x rest Hz)) ;;
      Ok (y :: ys)
  end.

(** A value together with the equation that names it. *)
Definition inspect {A} (x : A) : {y : A | x = y} := exist _ x eq_refl.

(** buildBlock converts a block's attributes and children to a json map.
    The recursion is on the children getChildBlocks keeps, which are
    among the descendants of the block. *)
Equations? buildBlock (order : MapOrder) (t : terraformConverter) (b : Block)
    : result (gmap string native) by wf (Block_size b) lt :=
  buildBlock order t b with inspect (getChildBlocks b) := {
    | exist _ (Panic msg) _ => Panic msg
    | exist _ (Ok cs) Hcs =>
        built ←? mapM_in cs (λ child Hin,
                   json ←? buildBlock order t child ;; Ok (Type_ child, json)) ;;
        Ok (buildBlock_body order t b built) }.
Proof.
  assert (Hkept : ∀ l st st',
            foldM getChildBlocks_step st l = Ok st' →
            ∀ x, x ∈ children st' → x ∈ children st ∨ x ∈ l).
  { induction l as [|block rest IH]; intros st st' H x Hx; simpl in H.
    - injection H as <-. by left.
    - destruct (getChildBlocks_step st block) as [st1|] eqn:E; simpl in H; [|done].
      destruct (IH _ _ H x Hx) as [Hx1|Hx1]; [|right; by right].
      assert (Hstep : children st1 = children st ∨ children st1 = children st ++ [block]).
      { unfold getChildBlocks_step in E. destruct (decide _).
        - destruct (getForEachCount block); simpl in E; [|done].
          injection E as <-. by left.
        - destruct (_ <=? _); [injection E as <-; by right|].
          destruct (_ <? _); injection E as <-; [by right|by left]. }
      destruct Hstep as [Heq|Heq]; rewrite Heq in Hx1; [by left|].
      apply elem_of_app in Hx1 as [Hx1|Hx1]; [by left|right].
      apply list_elem_of_singleton in Hx1 as ->. left. }
  assert (Hdesc : child ∈ AllBlocks b).
  { unfold getChildBlocks in Hcs.
    destruct (foldM _ _ (AllBlocks b)) as [st|] eqn:E; simpl in Hcs; [|done].
    injection Hcs as <-. destruct (Hkept _ _ _ E child Hin) as [Hnil|Hblock]; [|done].
    by apply elem_of_nil in Hnil. }
  clear - Hdesc. destruct b as [? ? ? ? ? ? ? blocks ? ?]. simpl in *.
  induction Hdesc as [x l|x y l _ IH]; simpl; lia.
Qed.

(** ** The walker *)

(** The state a conversion threads through: the converter, the calls made
    on the output container ([ArrayAppendP], path and value, in order) and
    the lines written to the logger. *)
Record conversion := {
  converter : terraformConverter;
  jsonOut : list (string * native);
  logged : list string
}.

(** NewTerraformConverter creates a new converter; [m] is what the parser
    evaluates for the given path, and the reference index starts empty. *)
Definition NewTerraformConverter (m : list Module) : terraformConverter :=
  {| modules := m; blocksByReference := ∅ |}.

(** getPath returns a string describing the location of the block. *)
Definition getPath (b : Block) (parentPath : string) : string :=
  let blockName := MetadataString (GetMetadata b) in
  if decide (parentPath = "") then blockName
  else parentPath +:+ "." +:+ blockName.

(** The block types visitBlock builds a document for. *)
Definition visited_types : list string :=
  ["data"; "locals"; "output"; "provider"; "terraform"; "variable"; "module";
   "moved"; "resource"].

(** visitBlock takes a block, and either builds a json model of the
    resource or ignores it. *)
Definition visitBlock (order : MapOrder) (b : Block) (parentPath : string)
    (st : conversion) : result conversion :=
  let t := {| modules := modules (converter st);
              blocksByReference := <[Reference b := b]> (blocksByReference (converter st)) |} in
  if decide (Type_ b ∈ visited_types) then
    json ←? buildBlock order t b ;;
    match json !! "__tfmeta" with
    | Some (NMap meta) =>
        let arrayKey := getPath b parentPath in
        let meta := <["path" := NString arrayKey]> meta in
        let (key, meta) :=
          if decide (Type_ b = "data" ∨ Type_ b = "resource")
          then (TypeLabel b, <["type" := NString (Type_ b)]> meta)
          else (Type_ b, meta) in
        let json := <["__tfmeta" := NMap meta]> json in
        Ok {| converter := t;
              jsonOut := jsonOut st ++ [(key, NMap json)];
              logged := logged st |}
    | _ => Panic "interface conversion"
    end
  else
    Ok {| converter := t;
          jsonOut := jsonOut st;
          logged := logged st ++ ["unknown block type: " +:+ Type_ b] |}.

(** Modelled from the spec: getPrivateValue, the reflection helper of this
    package that reads an unexported field of a block; for the field
    [moduleBlock] it yields the block of the enclosing module inclusion,
    or nil. *)
Definition getPrivateValue_moduleBlock (b : Block) : option Block :=
  match b with
  | mkBlock _ _ _ _ _ _ _ _ _ mb => mb
  end.

Fixpoint getModuleName (b : Block) : string :=
  match getPrivateValue_moduleBlock b with
  | None => ""
  | Some moduleBlock =>
      let moduleName := LocalName moduleBlock in
      let parentName := getModuleName moduleBlock in
      if decide (parentName = "") then moduleName
      else parentName +:+ "." +:+ moduleName
  end.

(** getModulePath gets a string describing the module's path. *)
Definition getModulePath (order : MapOrder) (m : Module) : result string :=
  let prefixes : gmap string unit :=
    foldl (λ prefixes b,
             let moduleName := getModuleName b in
             if decide (moduleName = "") then prefixes
             else <[moduleName := ()]> prefixes) ∅ (GetBlocks m) in
  if decide (1 < size prefixes)%nat then Panic "found too many prefixes!"
  else match range_keys order prefixes with
       | key :: _ => Ok key
       | [] => Ok ""
       end.

(** visitModule takes a module and walks each of the blocks underneath it. *)
Definition visitModule (order : MapOrder) (st : conversion) (m : Module)
    : result conversion :=
  path ←? getModulePath order m ;;
  foldM (λ st b, visitBlock order b path st) st (GetBlocks m).

(** VisitJSON visits each module the converter holds. *)
Definition VisitJSON (order : MapOrder) (t : terraformConverter) : result conversion :=
  foldM (visitModule order)
        {| converter := t; jsonOut := []; logged := [] |} (modules t).

(** * Vocabulary of the properties *)

(** ** Numbers *)

(** [is_integer n z]: the number [n] is exactly the integer [z]. *)
Definition is_integer (n : bigFloat) (z : Z) : Prop :=
  match n with
  | BigFinite m e => if 0 <=? e then z = m * 2 ^ e else m = z * 2 ^ (- e)
  | BigInf _ => False
  end.

(** The 64-bit integer nearest to [z]. *)
Definition saturate64 (z : Z) : Z :=
  if z <? min_int64 then min_int64
  else if max_int64 <? z then max_int64
  else z.

(** ** Children *)

(** A run of blocks, none a template, that all carry the source range [r]. *)
Definition instances_of (r : Range) (insts : list Block) : Prop :=
  Forall (λ i, Type_ i ≠ "dynamic" ∧ GetRange (GetMetadata i) = r) insts.

(** Keys that buildBlock writes after the children are stored. *)
Definition written_later (b : Block) (k : string) : Prop :=
  k ∈ Name <$> GetAttributes b ∨ (k = "id" ∧ ID b ≠ "") ∨ k = "__tfmeta".

(** ** Attributes and metadata *)

(** What the attribute loop stores for an attribute. *)
Definition attribute_value (b : Block) (a : Attribute) : native :=
  if decide (Type_ b = "variable" ∧ Name a = "type")
  then NString (VarTypeFriendlyName a)
  else getAttributeValue a.

(** Keys that buildBlock writes after the attributes are stored. *)
Definition reserved_key (b : Block) (k : string) : Prop :=
  (k = "id" ∧ ID b ≠ "") ∨ k = "__tfmeta".

(** The references accumulated over the attributes of a block. *)
Definition allRefs_of (b : Block) : gmap string bool :=
  foldl (λ s a, foldl Add s (AllReferences a)) ∅ (GetAttributes b).

(** The metadata object buildBlock attaches. *)
Definition block_meta (order : MapOrder) (t : terraformConverter) (b : Block)
    : gmap string native :=
  let r := GetRange (GetMetadata b) in
  let meta : gmap string native :=
    {[ "filename" := NString (GetLocalFilename r);
       "line_start" := NInt (GetStartLine r);
       "line_end" := NInt (GetEndLine r) ]} in
  let refs := getAttributeRefsMeta t (Entries order (allRefs_of b)) in
  let meta := if decide (0 < length refs)%nat
              then <["references" := NList (NMap <$> refs)]> meta else meta in
  if decide (TypeLabel b = "") then meta
  else <["label" := NString (TypeLabel b)]> meta.

(** ** The walk *)

(** The converter after the block [b] is entered in the reference index. *)
Definition register (b : Block) (t : terraformConverter) : terraformConverter :=
  {| modules := modules t;
     blocksByReference := <[Reference b := b]> (blocksByReference t) |}.

(** The metadata and the collection key of a top-level node. *)
Definition top_meta (order : MapOrder) (t : terraformConverter) (b : Block)
    (parentPath : string) : gmap string native :=
  let meta := <["path" := NString (getPath b parentPath)]> (block_meta order t b) in
  if decide (Type_ b = "data" ∨ Type_ b = "resource")
  then <["type" := NString (Type_ b)]> meta else meta.

Definition top_key (b : Block) : string :=
  if decide (Type_ b = "data" ∨ Type_ b = "resource") then TypeLabel b else Type_ b.

(** The top-level blocks of the modules. *)
Definition top_blocks (ms : list Module) : list Block :=
  ms ≫= GetBlocks.

(** The converter states a walk over the modules [ms] passes through. *)
Inductive walk_state (ms : list Module) : terraformConverter → Prop :=
| walk_start : walk_state ms (NewTerraformConverter ms)
| walk_visit t b :
    walk_state ms t → b ∈ top_blocks ms → walk_state ms (register b t).

(** What the output of a walk holds: for each entry a top-level block,
    built in a state of the walk. *)
Definition built_in_walk (order : MapOrder) (ms : list Module)
    (entry : string * native) : Prop :=
  ∃ A t json parentPath,
    A ∈ top_blocks ms ∧
    walk_state ms t ∧
    buildBlock order t A = Ok json ∧
    entry = (top_key A, NMap (<["__tfmeta" := NMap (top_meta order t A parentPath)]> json)).

Definition walk_invariant (order : MapOrder) (ms : list Module) (st : conversion) : Prop :=
  walk_state ms (converter st) ∧ Forall (built_in_walk order ms) (jsonOut st).

(** ** Module paths *)

(** The names of the enclosing module chains that the root blocks of a
    module report, the empty ones left out. *)
Definition module_names (m : Module) : list string :=
  filter (λ n, n ≠ "") (getModuleName <$> GetBlocks m).

(** The prefixes getModulePath collects. *)
Definition prefixes_of (bs : list Block) (prefixes : gmap string unit) : gmap string unit :=
  foldl (λ prefixes b,
           let moduleName := getModuleName b in
           if decide (moduleName = "") then prefixes
           else <[moduleName := ()]> prefixes) prefixes bs.

(** ** Reading documents *)

(** Walking down a document along a list of keys. *)
Fixpoint dig (keys : list string) (v : native) : option native :=
  match keys with
  | [] => Some v
  | k :: rest =>
      match v with
      | NMap m => m !! k ≫= dig rest
      | _ => None
      end
  end.

(** An enumeration of the keys of every map: the one stdpp computes. *)
Definition canonical_order : MapOrder.
Proof.
  refine {| range_keys := λ V m, (map_to_list m).*1 |}. reflexivity.
Defined.

(** ** Vocabulary of the further properties *)

(** The values convertCtyToNativeValue accepts: those that hold no set
    and no opaque value at any depth. *)
Fixpoint supported (val : ctyValue) : bool :=
  match val with
  | CtyList items => forallb supported items
  | CtyObject members => forallb (λ kv, supported kv.2) members
  | CtySet _ | CtyCapsule => false
  | _ => true
  end.

(** The template [c] has a [for_each] that getForEachCount can count. *)
Definition countable_template (c : Block) : bool :=
  match getForEachCount c with
  | Ok _ => true
  | Panic _ => false
  end.

(** Every template among the blocks [l] can be counted. *)
Definition templates_countable (l : list Block) : bool :=
  forallb (λ c, if decide (Type_ c = "dynamic") then countable_template c else true) l.

(** Every template in the tree of [b] can be counted. *)
Fixpoint tree_countable (b : Block) : bool :=
  forallb (λ c, (if decide (Type_ c = "dynamic") then countable_template c else true)
                && tree_countable c) (AllBlocks b).

(** The blocks of [l] that start at or after the end of the block kept
    before them, [p] being the end line to start from. *)
Fixpoint disjoint_from (p : Z) (l : list Block) : list Block :=
  match l with
  | [] => []
  | c :: rest =>
      if p <=? GetStartLine (GetRange (GetMetadata c))
      then c :: disjoint_from (GetEndLine (GetRange (GetMetadata c))) rest
      else disjoint_from p rest
  end.

(** The module inclusions that enclose a block, outermost first. *)
Fixpoint module_chain (b : Block) : list Block :=
  match getPrivateValue_moduleBlock b with
  | None => []
  | Some moduleBlock => module_chain moduleBlock ++ [moduleBlock]
  end.

(** The line visitBlock logs for a block of a type it does not know. *)
Definition unknown_type_line (b : Block) : string :=
  "unknown block type: " +:+ Type_ b.

(** What visitBlock appends for the block [b] under the parent path [p]:
    an entry under the block's key whose metadata holds the block's path. *)
Definition emitted_for (p : string) (b : Block) (entry : string * native) : Prop :=
  entry.1 = top_key b ∧
  dig ["__tfmeta"; "path"] entry.2 = Some (NString (getPath b p)).

(** * Sample configurations *)

Definition at_lines (s e : Z) (name : string) : Metadata :=
  {| GetRange := {| GetLocalFilename := "main.tf"; GetStartLine := s; GetEndLine := e |};
     MetadataString := name |}.

Definition attribute (name : string) (value : ctyValue) (raw : string)
    (refs : list string) : Attribute :=
  {| Name := name;
     Value := value;
     GetRawValue := NString raw;
     VarTypeFriendlyName := "";
     AllReferences := refs |}.

(** [resource "aws_s3_bucket" "main"], without and with a nested block. *)
Definition s3_bucket_main : Block :=
  mkBlock "resource" "aws_s3_bucket" "main" "id-main" "aws_s3_bucket.main" "main"
    [] [] (at_lines 1 3 "aws_s3_bucket.main") None.

Definition versioning : Block :=
  mkBlock "versioning" "" "" "" "aws_s3_bucket.main.versioning" "versioning"
    [] [] (at_lines 2 4 "versioning") None.

Definition bucket_with_versioning : Block :=
  mkBlock "resource" "aws_s3_bucket" "main" "id-main" "aws_s3_bucket.main" "main"
    [] [versioning] (at_lines 1 5 "aws_s3_bucket.main") None.

Definition fresh : conversion :=
  {| converter := NewTerraformConverter [{| GetBlocks := [bucket_with_versioning] |}];
     jsonOut := [];
     logged := [] |}.

(** A security group whose [ingress] blocks come from a template. *)
Definition dynamic_ingress : Block :=
  mkBlock "dynamic" "ingress" "" "" "aws_security_group.web.dynamic.ingress" "ingress"
    [attribute "for_each" (CtySet [CtyString "a"; CtyString "b"]) "toset(var.ports)" []]
    [] (at_lines 2 8 "dynamic.ingress") None.

Definition ingress_instance : Block :=
  mkBlock "ingress" "" "" "" "aws_security_group.web.ingress" "ingress"
    [] [] (at_lines 4 7 "ingress") None.

Definition security_group (attrs : list Attribute) (blocks : list Block) : Block :=
  mkBlock "resource" "aws_security_group" "web" "id-web" "aws_security_group.web" "web"
    attrs blocks (at_lines 1 9 "aws_security_group.web") None.

(** A security group that sets [ingress] as an attribute and also has one
    [ingress] block. *)
Definition security_group_both : Block :=
  security_group [attribute "ingress" (CtyList []) "[]" []] [ingress_instance].

(** A policy whose [bucket] attribute refers to the bucket. *)
Definition bucket_attribute : Attribute :=
  attribute "bucket" (CtyString "main-bucket") "aws_s3_bucket.main.id"
    ["aws_s3_bucket.main"].

Definition bucket_policy : Block :=
  mkBlock "resource" "aws_s3_bucket_policy" "main" "id-policy"
    "aws_s3_bucket_policy.main" "main"
    [bucket_attribute] [] (at_lines 7 9 "aws_s3_bucket_policy.main") None.

Definition after_bucket : terraformConverter :=
  register bucket_policy (register s3_bucket_main (NewTerraformConverter [])).

(** An instance whose [ports] attribute is a set, which the converter
    rejects, next to an attribute it accepts. *)
Definition ports_attribute : Attribute :=
  attribute "ports" (CtySet [CtyNumber (BigFinite 80 0); CtyNumber (BigFinite 443 0)])
    "toset([80, 443])" [].

Definition count_attribute : Attribute :=
  attribute "count" (CtyNumber (BigFinite 3 0)) "3" [].

Definition instance_with_ports : Block :=
  mkBlock "resource" "aws_instance" "web" "id-web" "aws_instance.web" "web"
    [ports_attribute; count_attribute] [] (at_lines 1 4 "aws_instance.web") None.

(** Buckets inside module inclusions. *)
Definition module_call (name : string) (outer : option Block) : Block :=
  mkBlock "module" name "" "" ("module." +:+ name) ("module." +:+ name)
    [] [] (at_lines 1 3 ("module." +:+ name)) outer.

Definition bucket_in (call : Block) : Block :=
  mkBlock "resource" "aws_s3_bucket" "main" "id-main" "aws_s3_bucket.main" "main"
    [] [] (at_lines 1 3 "aws_s3_bucket.main") (Some call).

Definition infra_module : Module :=
  {| GetBlocks := [bucket_in (module_call "infra" None); s3_bucket_main;
                   bucket_in (module_call "infra" None)] |}.

Definition torn_module : Module :=
  {| GetBlocks := [bucket_in (module_call "infra" None);
                   bucket_in (module_call "other" None)] |}.

(** Two modules that each declare a variable [name]; the second one also
    holds a bucket that refers to it. *)
Definition variable_name (id : string) : Block :=
  mkBlock "variable" "name" "" id "variable.name" "name"
    [] [] (at_lines 1 3 "variable.name") None.

Definition name_attribute : Attribute :=
  attribute "bucket" CtyUnknown "var.name" ["variable.name"].

Definition named_bucket : Block :=
  mkBlock "resource" "aws_s3_bucket" "named" "id-named" "aws_s3_bucket.named" "named"
    [name_attribute] [] (at_lines 5 7 "aws_s3_bucket.named") None.

Definition two_modules : list Module :=
  [ {| GetBlocks := [variable_name "id-root"] |};
    {| GetBlocks := [variable_name "id-child"; named_bucket] |} ].

(** A template whose [for_each] is not known yet, and one without any. *)
Definition unknown_template : Block :=
  mkBlock "dynamic" "ingress" "" "" "aws_security_group.web.dynamic.ingress" "ingress"
    [attribute "for_each" CtyUnknown "var.ports" []]
    [] (at_lines 2 8 "dynamic.ingress") None.

Definition bare_template : Block :=
  mkBlock "dynamic" "ingress" "" "" "aws_security_group.web.dynamic.ingress" "ingress"
    [] [] (at_lines 2 8 "dynamic.ingress") None.

(** A module with a block of a type the walker does not know. *)
Definition check_block : Block :=
  mkBlock "check" "health" "" "id-check" "check.health" "health"
    [] [] (at_lines 9 11 "check.health") None.

Definition module_with_check : list Module :=
  [ {| GetBlocks := [variable_name "id-root"; check_block; named_bucket] |} ].

(** A bucket that sets [id] as an attribute and has a nested block. *)
Definition bucket_with_id_attribute : Block :=
  mkBlock "resource" "aws_s3_bucket" "main" "id-main" "aws_s3_bucket.main" "main"
    [attribute "id" (CtyString "chosen") "chosen" [];
     attribute "acl" (CtyString "private") "private" []]
    [versioning] (at_lines 1 5 "aws_s3_bucket.main") None.

(** [variable "ports" { type = list(number) }]. *)
Definition typed_variable : Block :=
  mkBlock "variable" "ports" "" "id-ports" "variable.ports" "ports"
    [ {| Name := "type";
         Value := CtyNull;
         GetRawValue := NString "list(number)";
         VarTypeFriendlyName := "list of number";
         AllReferences := [] |} ]
    [] (at_lines 1 3 "variable.ports") None.

(** A module that declares the policy before the bucket it refers to. *)
Definition policy_before_bucket : list Module :=
  [ {| GetBlocks := [bucket_policy; s3_bucket_main] |} ].

(** * Properties *)

(** ** Helper lemmas *)

Lemma wrap64_small (z : Z) : min_int64 ≤ z ≤ max_int64 → wrap64 z = z.
Proof.
  unfold min_int64, max_int64, wrap64. intros Hz.
  rewrite Z.mod_small; lia.
Qed.

Lemma foldM_app {A S} (step : S → A → result S) (s : S) (l1 l2 : list A) :
  foldM step s (l1 ++ l2) = (s' ←? foldM step s l1 ;; foldM step s' l2).
Proof.
  revert s. induction l1 as [|x l1 IH]; intros s; simpl; [done|].
  destruct (step s x); simpl; auto.
Qed.

(** An element on which the step panics in every state stops the fold. *)
Lemma foldM_panics {A S} (step : S → A → result S) (l : list A) (x : A) (s : S) :
  x ∈ l → (∀ s, ∃ msg, step s x = Panic msg) → ∃ msg, foldM step s l = Panic msg.
Proof.
  intros Hin Hx. revert s. induction l as [|y l IH]; intros s.
  - by apply elem_of_nil in Hin.
  - simpl. apply elem_of_cons in Hin as [<-|Hin].
    + destruct (Hx s) as [msg ->]. by exists msg.
    + destruct (step s y) as [s'|msg]; simpl; [by apply IH|by exists msg].
Qed.

Lemma mapM_in_mapM {A B} (f : A → result B) (l : list A) :
  mapM_in l (λ x _, f x) = mapM f l.
Proof.
  induction l as [|x l IH]; simpl; [done|].
  destruct (f x); simpl; [|done]. by rewrite IH.
Qed.

Lemma is_Some_unless {A} (P : Prop) `{Decision P} (o : option A) (x : A) :
  o = (if decide P then None else Some x) → (is_Some o ↔ ¬ P).
Proof.
  intros ->.
  destruct (decide P); split; try done; try (by intros [? ?]); try (by eexists).
Qed.

Lemma is_Some_when {A} (P : Prop) `{Decision P} (o : option A) (x : A) :
  o = (if decide P then Some x else None) → (is_Some o ↔ P).
Proof.
  intros ->.
  destruct (decide P); split; try done; try (by intros [? ?]); try (by eexists).
Qed.

(** An entry that occurs once splits the list around it. *)
Lemma NoDup_split_at {A} (l : list A) (x : A) :
  NoDup l → x ∈ l → ∃ l1 l2, l = l1 ++ x :: l2 ∧ (x ∉ l1) ∧ (x ∉ l2).
Proof.
  intros Hnd Hin. apply list_elem_of_split in Hin as (l1 & l2 & ->).
  exists l1, l2. split; [done|].
  apply NoDup_app in Hnd as (_ & Hdisj & Hnd2).
  apply NoDup_cons in Hnd2 as [Hnotin _]. split; [|done].
  intros Hx. apply (Hdisj x Hx). left.
Qed.

(** ** Iteration order *)

Section MapOrderFacts.
Context (order : MapOrder) {V : Type} (m : gmap string V).

Lemma range_keys_NoDup : NoDup (range_keys order m).
Proof. rewrite range_keys_perm. apply NoDup_fst_map_to_list. Qed.

Lemma range_keys_elem_of (k : string) :
  k ∈ range_keys order m ↔ is_Some (m !! k).
Proof.
  rewrite range_keys_perm, list_elem_of_fmap. split.
  - intros [[k' v] [-> Hin]]. apply elem_of_map_to_list in Hin. by eexists.
  - intros [v Hv]. exists (k, v). split; [done|]. by apply elem_of_map_to_list.
Qed.

Lemma range_keys_length : length (range_keys order m) = size m.
Proof. by rewrite range_keys_perm, length_fmap, length_map_to_list. Qed.
End MapOrderFacts.

(** ** Path Namer: getPath *)

(** C8. With an empty parent path the path of a block is the block's own
    position-qualified name; otherwise it is the parent path, a dot and
    the block's own name. *)
Theorem getPath_composition (b : Block) (parentPath : string) :
  (parentPath = "" → getPath b parentPath = MetadataString (GetMetadata b)) ∧
  (parentPath ≠ "" →
   getPath b parentPath = parentPath +:+ "." +:+ MetadataString (GetMetadata b)).
Proof.
  unfold getPath. split; intros H; destruct (decide _); congruence.
Qed.

Lemma getPath_composition_witness :
  getPath s3_bucket_main "" = "aws_s3_bucket.main" ∧
  getPath s3_bucket_main "module.infra" = "module.infra.aws_s3_bucket.main".
Proof.
  split.
  - exact (proj1 (getPath_composition s3_bucket_main "") eq_refl).
  - refine (proj2 (getPath_composition s3_bucket_main "module.infra") _).
    discriminate.
Defined.

(** ** Child Deduplicator: getChildBlocks *)

Section SharedRange.
Context (r : Range).

(** Blocks that start before the last accepted end line are accepted for
    as long as the expected count stays positive. *)
Lemma getChildBlocks_overlapping_run (insts : list Block) (st : dedupState) :
  instances_of r insts →
  GetStartLine r < prevMaxEnd st →
  Z.of_nat (length insts) < expectedContentBlocks st ≤ max_int64 →
  foldM getChildBlocks_step st insts =
    Ok {| expectedContentBlocks := expectedContentBlocks st - Z.of_nat (length insts);
          prevMaxEnd := prevMaxEnd st;
          children := children st ++ insts |}.
Proof.
  intros Hall. revert st.
  induction Hall as [|i rest [Hty Hr] _ IH]; intros [E p cs] Hs HE; simpl in *.
  - rewrite Z.sub_0_r, app_nil_r. done.
  - unfold getChildBlocks_step at 1. simpl.
    destruct (decide (Type_ i = "dynamic")) as [|_]; [done|].
    rewrite Hr. destruct (Z.leb_spec p (GetStartLine r)); [lia|].
    rewrite wrap64_small by (unfold min_int64, max_int64 in *; lia).
    destruct (Z.ltb_spec 0 (E - 1)); [|lia]. simpl.
    rewrite IH by (simpl; lia). simpl.
    f_equal. f_equal; [lia|]. by rewrite <- app_assoc.
Qed.

(** Once the expected count is down to one, every further block that
    starts before the last accepted end line is dropped. *)
Lemma getChildBlocks_exhausted_run (insts : list Block) (st : dedupState) :
  instances_of r insts →
  GetStartLine r < prevMaxEnd st →
  min_int64 + Z.of_nat (length insts) ≤ expectedContentBlocks st ≤ 1 →
  foldM getChildBlocks_step st insts =
    Ok {| expectedContentBlocks := expectedContentBlocks st - Z.of_nat (length insts);
          prevMaxEnd := prevMaxEnd st;
          children := children st |}.
Proof.
  intros Hall. revert st.
  induction Hall as [|i rest [Hty Hr] _ IH]; intros [E p cs] Hs HE; simpl in *.
  - by rewrite Z.sub_0_r.
  - unfold getChildBlocks_step at 1. simpl.
    destruct (decide (Type_ i = "dynamic")) as [|_]; [done|].
    rewrite Hr. destruct (Z.leb_spec p (GetStartLine r)); [lia|].
    rewrite wrap64_small by (unfold min_int64, max_int64 in *; lia).
    destruct (Z.ltb_spec 0 (E - 1)); [lia|]. simpl.
    rewrite IH by (simpl; lia). simpl. f_equal. f_equal. lia.
Qed.

(** Blocks whose range ends no later than it starts never overlap the
    range accepted before them: each one is a new child. *)
Lemma getChildBlocks_disjoint_run (insts : list Block) (st : dedupState) :
  instances_of r insts →
  GetEndLine r ≤ GetStartLine r →
  prevMaxEnd st ≤ GetStartLine r →
  ∃ p, foldM getChildBlocks_step st insts =
    Ok {| expectedContentBlocks := expectedContentBlocks st;
          prevMaxEnd := p;
          children := children st ++ insts |}.
Proof.
  intros Hall He. revert st.
  induction Hall as [|i rest [Hty Hr] _ IH]; intros [E p cs] Hs; simpl in *.
  - exists p. by rewrite app_nil_r.
  - unfold getChildBlocks_step at 1. simpl.
    destruct (decide (Type_ i = "dynamic")) as [|_]; [done|].
    rewrite Hr. destruct (Z.leb_spec p (GetStartLine r)); [|lia]. simpl.
    destruct (IH {| expectedContentBlocks := E; prevMaxEnd := GetEndLine r;
                    children := cs ++ [i] |}) as [p' Hp']; [simpl; lia|].
    exists p'. rewrite Hp'. simpl. by rewrite <- app_assoc.
Qed.
End SharedRange.

(** C1. A block whose descendants are a template ([dynamic]) with a
    [for_each] collection of length N, followed by N instances that all
    carry the same source range, has exactly those N instances as its
    children; no child is a template. *)
Theorem getChildBlocks_template_expansion
    (b template : Block) (insts : list Block) (r : Range)
    (for_each : ctyValue) (items : list ctyValue) :
  AllBlocks b = template :: insts →
  Type_ template = "dynamic" →
  ValueOf (GetAttribute template "for_each") = for_each →
  IsNull for_each = false →
  AsValueSlice for_each = Ok items →
  length insts = length items →
  Z.of_nat (length items) ≤ max_int64 →
  instances_of r insts →
  0 ≤ GetStartLine r →
  ∃ cs, getChildBlocks b = Ok cs ∧
        cs = insts ∧
        length cs = length items ∧
        (template ∉ cs) ∧
        Forall (λ c, Type_ c ≠ "dynamic") cs.
Proof.
  intros Hall Hty Hfe Hnull Hslice Hlen Hmax Hinsts Hstart.
  assert (Hnodyn : Forall (λ c, Type_ c ≠ "dynamic") insts).
  { eapply Forall_impl; [exact Hinsts|]. by intros ? [? _]. }
  exists insts. split; [|repeat split; auto].
  2:{ intros Hin. rewrite Forall_forall in Hnodyn. by apply (Hnodyn _ Hin). }
  unfold getChildBlocks. rewrite Hall. simpl.
  unfold getChildBlocks_step at 1. simpl.
  destruct (decide (Type_ template = "dynamic")) as [_|]; [|done].
  unfold getForEachCount. rewrite Hfe, Hnull, Hslice. simpl.
  rewrite wrap64_small by (unfold min_int64, max_int64 in *; lia).
  destruct Hinsts as [|i rest [Hi Hr] Hrest]; [done|].
  simpl. unfold getChildBlocks_step at 1. simpl.
  destruct (decide (Type_ i = "dynamic")) as [|_]; [done|].
  rewrite Hr. destruct (Z.leb_spec 0 (GetStartLine r)); [|lia]. simpl.
  destruct (Z_le_gt_dec (GetEndLine r) (GetStartLine r)) as [Hle|Hgt].
  - edestruct (getChildBlocks_disjoint_run r rest) as [p Hp]; [done|done| |].
    2:{ rewrite Hp. done. }
    simpl. lia.
  - rewrite (getChildBlocks_overlapping_run r rest); [done|done|simpl; lia|].
    simpl in *. lia.
Qed.

Lemma getChildBlocks_template_expansion_witness :
  ∃ cs, getChildBlocks (security_group [] [dynamic_ingress; ingress_instance; ingress_instance])
          = Ok cs ∧
        cs = [ingress_instance; ingress_instance] ∧
        length cs = 2%nat ∧
        (dynamic_ingress ∉ cs) ∧
        Forall (λ c, Type_ c ≠ "dynamic") cs.
Proof.
  apply (getChildBlocks_template_expansion
           (security_group [] [dynamic_ingress; ingress_instance; ingress_instance])
           dynamic_ingress [ingress_instance; ingress_instance]
           (GetRange (at_lines 4 7 "ingress"))
           (CtySet [CtyString "a"; CtyString "b"]) [CtyString "a"; CtyString "b"]);
    try reflexivity.
  - vm_compute. discriminate.
  - repeat constructor; discriminate.
  - simpl. lia.
Defined.

(** When the parser lists more instances than the collection has
    elements, as it does when it lists each instance twice, the first N
    are the children and the surplus is dropped. *)
Lemma getChildBlocks_template_surplus
    (b template : Block) (insts : list Block) (r : Range)
    (for_each : ctyValue) (items : list ctyValue) :
  AllBlocks b = template :: insts →
  Type_ template = "dynamic" →
  ValueOf (GetAttribute template "for_each") = for_each →
  IsNull for_each = false →
  AsValueSlice for_each = Ok items →
  (0 < length items ≤ length insts)%nat →
  Z.of_nat (length insts) ≤ max_int64 →
  instances_of r insts →
  0 ≤ GetStartLine r < GetEndLine r →
  getChildBlocks b = Ok (take (length items) insts).
Proof.
  intros Hall Hty Hfe Hnull Hslice Hlen Hmax Hinsts Hrange.
  unfold getChildBlocks. rewrite Hall. simpl.
  unfold getChildBlocks_step at 1. simpl.
  destruct (decide (Type_ template = "dynamic")) as [_|]; [|done].
  unfold getForEachCount. rewrite Hfe, Hnull, Hslice. simpl.
  rewrite wrap64_small by (unfold min_int64, max_int64 in *; lia).
  destruct (length items) as [|n] eqn:Hn; [lia|].
  destruct Hinsts as [|i rest [Hi Hr] Hrest]; [simpl in Hlen; lia|].
  simpl. unfold getChildBlocks_step at 1. simpl.
  destruct (decide (Type_ i = "dynamic")) as [|_]; [done|].
  rewrite Hr. destruct (Z.leb_spec 0 (GetStartLine r)); [|lia]. simpl.
  rewrite <- (take_drop n rest) at 1. rewrite foldM_app.
  assert (Htake : length (take n rest) = n) by (rewrite length_take; simpl in Hlen; lia).
  rewrite (getChildBlocks_overlapping_run r (take n rest));
    [|by apply Forall_take|simpl; lia|simpl in *; lia].
  simpl. rewrite Htake.
  rewrite (getChildBlocks_exhausted_run r (drop n rest));
    [done|by apply Forall_drop|simpl; lia|].
  simpl in *. rewrite length_drop. unfold min_int64, max_int64 in *. lia.
Qed.

Example getChildBlocks_drops_surplus_copies :
  getChildBlocks (security_group []
    [dynamic_ingress; ingress_instance; ingress_instance; ingress_instance; ingress_instance])
  = Ok [ingress_instance; ingress_instance].
Proof. reflexivity. Qed.

(** ** Value Converter: numbers *)

(** [IsInt] decides integrality on the arbitrary-precision value. *)
Lemma IsInt_is_integer (n : bigFloat) : IsInt n = true ↔ ∃ z, is_integer n z.
Proof.
  destruct n as [m e|neg]; simpl; [|split; [done|by intros [? []]]].
  destruct (Z.leb_spec 0 e) as [He|He]; [split; eauto|].
  assert (Hpos : 0 < 2 ^ (- e)) by (apply Z.pow_pos_nonneg; lia).
  rewrite Z.eqb_eq. split.
  - intros Hmod. exists (m / 2 ^ (- e)).
    pose proof (Z.div_mod m (2 ^ (- e))). lia.
  - intros [z ->]. apply Z.mod_mul. lia.
Qed.

Lemma is_integer_truncate (n : bigFloat) (z : Z) :
  is_integer n z → truncate n = Some z.
Proof.
  destruct n as [m e|neg]; simpl; [|done].
  destruct (Z.leb_spec 0 e) as [He|He]; [by intros ->|].
  intros ->. f_equal. apply Z.quot_mul.
  assert (0 < 2 ^ (- e)) by (apply Z.pow_pos_nonneg; lia). lia.
Qed.

(** C2, as amended. A number that is exactly integral is emitted as an
    integer and any other number as a floating-point number; the check
    is made on the arbitrary-precision value.  The integer emitted is a
    64-bit one: it is the value itself when the value lies in the signed
    64-bit range, and the nearest bound of that range otherwise. *)
Theorem convert_number_integral_or_float (n : bigFloat) :
  (∀ z, is_integer n z →
        convertCtyToNativeValue (CtyNumber n) = (NInt (saturate64 z), true) ∧
        (min_int64 ≤ z ≤ max_int64 →
         convertCtyToNativeValue (CtyNumber n) = (NInt z, true))) ∧
  ((¬ ∃ z, is_integer n z) →
   convertCtyToNativeValue (CtyNumber n) = (NFloat (Float64 n), true)).
Proof.
  split.
  - intros z Hz.
    assert (Hint : IsInt n = true) by (apply IsInt_is_integer; eauto).
    assert (Hconv : convertCtyToNativeValue (CtyNumber n) = (NInt (saturate64 z), true)).
    { simpl. rewrite Hint. unfold Int64. by rewrite (is_integer_truncate n z Hz). }
    split; [done|]. intros Hrange. rewrite Hconv. unfold saturate64.
    destruct (Z.ltb_spec z min_int64); [lia|].
    destruct (Z.ltb_spec max_int64 z); [lia|done].
  - intros Hnot. simpl. destruct (IsInt n) eqn:Hint; [|done].
    exfalso. apply Hnot. by apply IsInt_is_integer.
Qed.

Lemma convert_number_integral_or_float_witness :
  convertCtyToNativeValue (CtyNumber (BigFinite 5 0)) = (NInt 5, true) ∧
  convertCtyToNativeValue (CtyNumber (BigFinite 11 (-1)))
    = (NFloat (Float64 (BigFinite 11 (-1))), true).
Proof.
  split.
  - refine (proj2 (proj1 (convert_number_integral_or_float (BigFinite 5 0)) 5 _) _).
    + reflexivity.
    + unfold min_int64, max_int64. lia.
  - refine (proj2 (convert_number_integral_or_float (BigFinite 11 (-1))) _).
    intros [z Hz]. simpl in Hz. lia.
Defined.

(** The value 5.5 is emitted as the binary64 number 11 * 2^-1. *)
Example convert_five_and_a_half :
  convertCtyToNativeValue (CtyNumber (BigFinite 11 (-1)))
  = (NFloat (S754_finite false 6192449487634432 (-50)), true).
Proof. reflexivity. Qed.

(** C2 as stated fails: the number 2^63 is integral, and the integer
    emitted for it is 2^63 - 1. *)
Lemma convert_number_loses_large_integers :
  is_integer (BigFinite 1 63) (2 ^ 63) ∧
  convertCtyToNativeValue (CtyNumber (BigFinite 1 63)) = (NInt (2 ^ 63 - 1), true) ∧
  ¬ (∀ n z, is_integer n z →
            convertCtyToNativeValue (CtyNumber n) = (NInt z, true)).
Proof.
  split; [reflexivity|]. split; [reflexivity|].
  intros H. specialize (H (BigFinite 1 63) (2 ^ 63) eq_refl).
  vm_compute in H. discriminate H.
Qed.

(** ** stringSet *)

Lemma Add_lookup (s : gmap string bool) (str k : string) :
  (∀ k v, s !! k = Some v → v = true) →
  Add s str !! k = if decide (str = k) then Some true else s !! k.
Proof.
  intros Htrue. unfold Add.
  destruct (s !! str) as [v|] eqn:E; simpl.
  - pose proof (Htrue _ _ E) as ->. simpl.
    destruct (decide (str = k)) as [<-|]; [exact E|done].
  - by rewrite lookup_insert.
Qed.

Lemma Add_all_true (s : gmap string bool) (str : string) :
  (∀ k v, s !! k = Some v → v = true) →
  ∀ k v, Add s str !! k = Some v → v = true.
Proof.
  intros Htrue k v. rewrite Add_lookup by done.
  destruct (decide _); [congruence|eauto].
Qed.

Lemma foldl_Add_spec (refs : list string) (s : gmap string bool) :
  (∀ k v, s !! k = Some v → v = true) →
  (∀ k v, foldl Add s refs !! k = Some v → v = true) ∧
  (∀ k, is_Some (foldl Add s refs !! k) ↔ is_Some (s !! k) ∨ k ∈ refs).
Proof.
  revert s. induction refs as [|r refs IH]; intros s Htrue; simpl.
  - split; [done|]. intros k. rewrite elem_of_nil. tauto.
  - destruct (IH (Add s r) (Add_all_true s r Htrue)) as [IH1 IH2].
    split; [done|]. intros k. rewrite IH2, Add_lookup by done.
    rewrite elem_of_cons. destruct (decide (r = k)) as [->|].
    + split; [auto|]. intros _. left. by eexists.
    + split; [intros [|]; auto|intros [|[|]]; auto; congruence].
Qed.

Lemma allRefs_fold_spec (attrs : list Attribute) (s : gmap string bool) :
  (∀ k v, s !! k = Some v → v = true) →
  (∀ k v, foldl (λ s a, foldl Add s (AllReferences a)) s attrs !! k = Some v → v = true) ∧
  (∀ k, is_Some (foldl (λ s a, foldl Add s (AllReferences a)) s attrs !! k) ↔
        is_Some (s !! k) ∨ ∃ a, a ∈ attrs ∧ k ∈ AllReferences a).
Proof.
  revert s. induction attrs as [|a attrs IH]; intros s Htrue; simpl.
  - split; [done|]. intros k. split; [auto|]. intros [|[a [Ha _]]]; [done|].
    by apply elem_of_nil in Ha.
  - destruct (foldl_Add_spec (AllReferences a) s Htrue) as [H1 H2].
    destruct (IH _ H1) as [IH1 IH2]. split; [done|].
    intros k. rewrite IH2, H2. split.
    + intros [[|]|[a' [Ha' Hk]]]; auto.
      * right. exists a. split; [left|done].
      * right. exists a'. split; [by right|done].
    + intros [|[a' [Ha' Hk]]]; auto.
      apply elem_of_cons in Ha' as [->|Ha']; [auto|].
      right. eauto.
Qed.

(** A string is in the accumulated set exactly when some attribute of the
    block refers to it. *)
Lemma allRefs_of_spec (b : Block) (k : string) :
  is_Some (allRefs_of b !! k) ↔ ∃ a, a ∈ GetAttributes b ∧ k ∈ AllReferences a.
Proof.
  unfold allRefs_of.
  destruct (allRefs_fold_spec (GetAttributes b) ∅) as [_ H].
  { intros ? ?. by rewrite lookup_empty. }
  rewrite H, lookup_empty. split; [intros [[? ?]|]; done|auto].
Qed.

Lemma Entries_eq (order : MapOrder) (s : gmap string bool) :
  Entries order s = replicate (size s) "" ++ range_keys order s.
Proof.
  unfold Entries. generalize (replicate (size s) "").
  induction (range_keys order s) as [|k ks IH]; intros l; simpl.
  - by rewrite app_nil_r.
  - rewrite IH, <- app_assoc. done.
Qed.

(** ** Reference Index: getAttributeRefsMeta *)

Section ReferenceIndex.
Context (t : terraformConverter).

Lemma getAttributeRefsMeta_acc (refs : list string) (acc : list (gmap string native)) :
  foldl (λ refsMeta ref,
           match blocksByReference t !! ref with
           | Some block => refsMeta ++ [refDescriptor block]
           | None => refsMeta
           end) acc refs
  = acc ++ omap (λ ref, refDescriptor <$> blocksByReference t !! ref) refs.
Proof.
  revert acc. induction refs as [|r refs IH]; intros acc; simpl.
  - by rewrite app_nil_r.
  - rewrite IH. destruct (blocksByReference t !! r); simpl; [|done].
    by rewrite <- app_assoc.
Qed.

(** getAttributeRefsMeta keeps, in order, a descriptor for every entry the
    reference index resolves. *)
Lemma getAttributeRefsMeta_omap (refs : list string) :
  getAttributeRefsMeta t refs
  = omap (λ ref, refDescriptor <$> blocksByReference t !! ref) refs.
Proof. unfold getAttributeRefsMeta. by rewrite getAttributeRefsMeta_acc. Qed.

Lemma getAttributeRefsMeta_app (l1 l2 : list string) :
  getAttributeRefsMeta t (l1 ++ l2)
  = getAttributeRefsMeta t l1 ++ getAttributeRefsMeta t l2.
Proof. rewrite !getAttributeRefsMeta_omap. apply omap_app. Qed.

Lemma getAttributeRefsMeta_cons (r : string) (refs : list string) :
  getAttributeRefsMeta t (r :: refs)
  = match blocksByReference t !! r with
    | Some block => refDescriptor block :: getAttributeRefsMeta t refs
    | None => getAttributeRefsMeta t refs
    end.
Proof.
  rewrite !getAttributeRefsMeta_omap. simpl.
  by destruct (blocksByReference t !! r).
Qed.

Lemma getAttributeRefsMeta_unresolved (refs : list string) :
  (∀ r, r ∈ refs → blocksByReference t !! r = None) →
  getAttributeRefsMeta t refs = [].
Proof.
  intros Hnone. induction refs as [|r refs IH]; [done|].
  rewrite getAttributeRefsMeta_cons, (Hnone r) by left.
  apply IH. intros r' Hr'. apply Hnone. by right.
Qed.

Lemma getAttributeRefsMeta_filter (r : string) (refs : list string) :
  blocksByReference t !! r = None →
  getAttributeRefsMeta t refs = getAttributeRefsMeta t (filter (λ e, e ≠ r) refs).
Proof.
  intros Hr. induction refs as [|e refs IH]; [done|].
  rewrite filter_cons. destruct (decide (e ≠ r)) as [Hne|Heq].
  - by rewrite !getAttributeRefsMeta_cons, IH.
  - apply dec_stable in Heq as ->. by rewrite getAttributeRefsMeta_cons, Hr.
Qed.

Lemma getAttributeRefsMeta_elem_of (refs : list string) (d : gmap string native) :
  d ∈ getAttributeRefsMeta t refs →
  ∃ r blk, r ∈ refs ∧ blocksByReference t !! r = Some blk ∧ d = refDescriptor blk.
Proof.
  rewrite getAttributeRefsMeta_omap, list_elem_of_omap.
  intros (r & Hr & Hd). destruct (blocksByReference t !! r) as [blk|] eqn:E; [|done].
  injection Hd as <-. by exists r, blk.
Qed.

Lemma getAttributeRefsMeta_padding (n : nat) :
  blocksByReference t !! "" = None →
  getAttributeRefsMeta t (replicate n "") = [].
Proof.
  intros Hempty. apply getAttributeRefsMeta_unresolved.
  by intros r ->%elem_of_replicate_inv.
Qed.

(** With no block entered under the empty string, the entries that count
    are the keys of the set. *)
Lemma getAttributeRefsMeta_Entries (order : MapOrder) (s : gmap string bool) :
  blocksByReference t !! "" = None →
  getAttributeRefsMeta t (Entries order s) = getAttributeRefsMeta t (range_keys order s).
Proof.
  intros Hempty.
  by rewrite Entries_eq, getAttributeRefsMeta_app, getAttributeRefsMeta_padding.
Qed.

(** A block entered under the empty string is described once for every
    string of the set, ahead of the descriptors of the set itself: the
    proviso on the empty string cannot be dropped. *)
Remark padding_resolves_under_empty_key (order : MapOrder) (s : gmap string bool)
    (blk : Block) :
  blocksByReference t !! "" = Some blk →
  getAttributeRefsMeta t (Entries order s)
  = replicate (size s) (refDescriptor blk) ++ getAttributeRefsMeta t (range_keys order s).
Proof.
  intros Hblk. rewrite Entries_eq, getAttributeRefsMeta_app. f_equal.
  induction (size s) as [|n IH]; [done|].
  simpl. by rewrite getAttributeRefsMeta_cons, Hblk, IH.
Qed.

End ReferenceIndex.

(** C10. For a set of n strings Entries returns 2n elements: n empty
    strings, then the n strings of the set, each once, in the order of the
    iteration.  When no block is entered under the empty string, the empty
    strings add no descriptor to the reference metadata. *)
Theorem Entries_padding (order : MapOrder) (s : gmap string bool)
    (t : terraformConverter) :
  let n := size s in
  length (Entries order s) = (2 * n)%nat ∧
  take n (Entries order s) = replicate n "" ∧
  drop n (Entries order s) = range_keys order s ∧
  NoDup (range_keys order s) ∧
  (∀ k, k ∈ range_keys order s ↔ is_Some (s !! k)) ∧
  (blocksByReference t !! "" = None →
   getAttributeRefsMeta t (Entries order s)
   = getAttributeRefsMeta t (drop n (Entries order s))).
Proof.
  simpl. rewrite Entries_eq.
  assert (Hlen : length (replicate (size s) "") = size s) by apply length_replicate.
  repeat split.
  - rewrite length_app, Hlen, range_keys_length. lia.
  - by rewrite take_app_length'.
  - by rewrite drop_app_length'.
  - apply range_keys_NoDup.
  - apply range_keys_elem_of.
  - apply range_keys_elem_of.
  - intros Hempty. rewrite drop_app_length' by done.
    by rewrite getAttributeRefsMeta_app, getAttributeRefsMeta_padding.
Qed.

Lemma Entries_padding_witness :
  Entries canonical_order (Add (Add ∅ "aws_s3_bucket.main") "var.name")
  = [""; ""; "aws_s3_bucket.main"; "var.name"] ∧
  getAttributeRefsMeta after_bucket
    (Entries canonical_order (Add (Add ∅ "aws_s3_bucket.main") "var.name"))
  = [refDescriptor s3_bucket_main].
Proof.
  split; [vm_compute; reflexivity|].
  destruct (Entries_padding canonical_order
              (Add (Add ∅ "aws_s3_bucket.main") "var.name") after_bucket)
    as (_ & _ & Hdrop & _ & _ & Hmeta).
  rewrite Hmeta by (vm_compute; reflexivity). rewrite Hdrop.
  vm_compute. reflexivity.
Defined.

(** ** Block Builder *)

(** *** The collector *)

Lemma add_lookup (collection : gmap string (list native)) (key k : string)
    (value : native) :
  add collection key value !! k
  = if decide (key = k) then Some (default [] (collection !! key) ++ [value])
    else collection !! k.
Proof.
  unfold add, getList. destruct (collection !! key) as [items|] eqn:E; simpl.
  - by rewrite lookup_insert.
  - rewrite lookup_insert. destruct (decide (key = k)); [done|].
    by rewrite lookup_insert_ne.
Qed.

(** The documents collected under a key are those of the children of that
    type, in the order of the children. *)
Lemma collect_lookup (built : list (string * gmap string native))
    (collection : gmap string (list native)) (k : string) :
  foldl (λ c kv, add c kv.1 (NMap kv.2)) collection built !! k
  = let group := NMap <$> (filter (λ kv, kv.1 = k) built).*2 in
    match group with
    | [] => collection !! k
    | _ => Some (default [] (collection !! k) ++ group)
    end.
Proof.
  revert collection. induction built as [|[key json] built IH]; intros collection.
  - done.
  - cbn [foldl]. rewrite IH. clear IH. rewrite add_lookup. simpl.
    rewrite filter_cons. simpl. destruct (decide (key = k)) as [->|Hne]; simpl.
    + destruct (filter _ built) as [|kv rest]; simpl; [done|].
      by rewrite <- app_assoc.
    + done.
Qed.

Lemma dump_lookup (collection : gmap string (list native)) (k : string) :
  dump collection !! k
  = match collection !! k with
    | Some [item] => Some item
    | Some items => Some (NList items)
    | None => None
    end.
Proof.
  unfold dump. rewrite lookup_fmap.
  destruct (collection !! k) as [[|item [|? ?]]|]; done.
Qed.

(** *** The attribute loop *)

Section AttributeLoop.
Context (b : Block).

Lemma buildBlock_attribute_eq (obj : gmap string native) (refs : gmap string bool)
    (a : Attribute) :
  buildBlock_attribute b (obj, refs) a
  = (<[Name a := attribute_value b a]> obj, foldl Add refs (AllReferences a)).
Proof.
  unfold buildBlock_attribute, attribute_value. by destruct (decide _).
Qed.

Lemma attribute_loop_refs (attrs : list Attribute) (obj : gmap string native)
    (refs : gmap string bool) :
  (foldl (buildBlock_attribute b) (obj, refs) attrs).2
  = foldl (λ s a, foldl Add s (AllReferences a)) refs attrs.
Proof.
  revert obj refs. induction attrs as [|a attrs IH]; intros obj refs; cbn [foldl]; [done|].
  by rewrite buildBlock_attribute_eq, IH.
Qed.

(** The loop leaves alone every key that is not an attribute name. *)
Lemma attribute_loop_other (attrs : list Attribute) (obj : gmap string native)
    (refs : gmap string bool) (k : string) :
  k ∉ Name <$> attrs →
  (foldl (buildBlock_attribute b) (obj, refs) attrs).1 !! k = obj !! k.
Proof.
  revert obj refs. induction attrs as [|a attrs IH]; intros obj refs Hk; cbn [foldl]; [done|].
  rewrite fmap_cons, not_elem_of_cons in Hk. destruct Hk as [Hne Hk].
  rewrite buildBlock_attribute_eq, IH by done. by rewrite lookup_insert_ne.
Qed.

(** With distinct attribute names, the loop leaves under each name the
    value of the attribute of that name. *)
Lemma attribute_loop_lookup (attrs : list Attribute) (obj : gmap string native)
    (refs : gmap string bool) (a : Attribute) :
  NoDup (Name <$> attrs) →
  a ∈ attrs →
  (foldl (buildBlock_attribute b) (obj, refs) attrs).1 !! Name a
  = Some (attribute_value b a).
Proof.
  revert obj refs. induction attrs as [|a' attrs IH]; intros obj refs Hnd Hin; cbn [foldl].
  - by apply elem_of_nil in Hin.
  - rewrite fmap_cons in Hnd. apply NoDup_cons in Hnd as [Hnotin Hnd].
    rewrite buildBlock_attribute_eq.
    apply elem_of_cons in Hin as [->|Hin]; [|by apply IH].
    rewrite attribute_loop_other by done. apply lookup_insert_eq.
Qed.

End AttributeLoop.

(** *** The document of a block *)

Section Builder.
Context (order : MapOrder) (t : terraformConverter).

(** buildBlock as the source writes it: the children that getChildBlocks
    keeps are built first, each under its type, then the block itself. *)
Lemma buildBlock_eq (b : Block) :
  buildBlock order t b =
    (cs ←? getChildBlocks b ;;
     built ←? mapM (λ child, json ←? buildBlock order t child ;; Ok (Type_ child, json)) cs ;;
     Ok (buildBlock_body order t b built)).
Proof.
  simp buildBlock.
  destruct (inspect (getChildBlocks b)) as [[cs|msg] E]; simp buildBlock.
  - rewrite E. simpl. by rewrite mapM_in_mapM.
  - by rewrite E.
Qed.

Lemma buildBlock_Ok_inv (b : Block) (json : gmap string native) :
  buildBlock order t b = Ok json →
  ∃ cs built,
    getChildBlocks b = Ok cs ∧
    mapM (λ child, json ←? buildBlock order t child ;; Ok (Type_ child, json)) cs = Ok built ∧
    json = buildBlock_body order t b built.
Proof.
  rewrite buildBlock_eq. intros H.
  destruct (getChildBlocks b) as [cs|]; [|done]. simpl in H.
  destruct (mapM _ cs) as [built|] eqn:E; [|done]. simpl in H.
  exists cs, built. repeat split; congruence.
Qed.

(** buildBlock panics only where getChildBlocks or the building of a child
    does: nothing that happens to an attribute stops it. *)
Lemma buildBlock_Panic_inv (b : Block) (msg : string) :
  buildBlock order t b = Panic msg →
  getChildBlocks b = Panic msg ∨
  ∃ cs, getChildBlocks b = Ok cs ∧
        mapM (λ child, json ←? buildBlock order t child ;; Ok (Type_ child, json)) cs
        = Panic msg.
Proof.
  rewrite buildBlock_eq. destruct (getChildBlocks b) as [cs|msg']; simpl.
  - destruct (mapM _ cs) as [built|msg'] eqn:E; simpl; [done|].
    intros [= ->]. right. by exists cs.
  - intros [= ->]. by left.
Qed.

Lemma mapM_built_filter (X : string) (cs : list Block)
    (built : list (string * gmap string native)) :
  mapM (λ child, json ←? buildBlock order t child ;; Ok (Type_ child, json)) cs = Ok built →
  mapM (buildBlock order t) (filter (λ c, Type_ c = X) cs)
  = Ok (filter (λ kv, kv.1 = X) built).*2.
Proof.
  revert built. induction cs as [|c cs IH]; intros built H; simpl in H.
  - by injection H as <-.
  - destruct (buildBlock order t c) as [json|] eqn:Hc; simpl in H; [|done].
    destruct (mapM _ cs) as [rest|] eqn:Hrest; simpl in H; [|done].
    injection H as <-. specialize (IH rest eq_refl).
    rewrite !filter_cons. simpl.
    destruct (decide (Type_ c = X)); simpl; [|done].
    by rewrite Hc, IH.
Qed.

Lemma buildBlock_body_tfmeta (b : Block) (built : list (string * gmap string native)) :
  buildBlock_body order t b built !! "__tfmeta" = Some (NMap (block_meta order t b)).
Proof.
  unfold buildBlock_body, block_meta.
  pose proof (attribute_loop_refs b (GetAttributes b)
    (dump (foldl (λ c kv, add c kv.1 (NMap kv.2)) ∅ built) ∪ ∅) ∅) as Hrefs.
  destruct (foldl (buildBlock_attribute b) _ (GetAttributes b)) as [obj refs].
  simpl in Hrefs. subst refs. by rewrite lookup_insert_eq.
Qed.

Lemma buildBlock_body_children (b : Block) (built : list (string * gmap string native))
    (k : string) :
  ¬ written_later b k →
  buildBlock_body order t b built !! k
  = match NMap <$> (filter (λ kv, kv.1 = k) built).*2 with
    | [] => None
    | [item] => Some item
    | items => Some (NList items)
    end.
Proof.
  intros Hk. unfold written_later in Hk. unfold buildBlock_body.
  pose proof (attribute_loop_other b (GetAttributes b)
    (dump (foldl (λ c kv, add c kv.1 (NMap kv.2)) ∅ built) ∪ ∅) ∅ k) as Hloop.
  destruct (foldl (buildBlock_attribute b) _ (GetAttributes b)) as [obj refs].
  simpl in Hloop. rewrite lookup_insert_ne by (intros <-; tauto).
  assert (Hobj : (if decide (ID b = "") then obj else <["id" := NString (ID b)]> obj) !! k
                 = obj !! k).
  { destruct (decide (ID b = "")); [done|]. apply lookup_insert_ne.
    intros <-. tauto. }
  rewrite Hobj, Hloop by tauto.
  rewrite (right_id_L ∅ (∪)), dump_lookup, collect_lookup, lookup_empty. simpl.
  by destruct (NMap <$> _) as [|item [|? ?]].
Qed.

Lemma buildBlock_body_attribute (b : Block) (built : list (string * gmap string native))
    (a : Attribute) :
  NoDup (Name <$> GetAttributes b) →
  a ∈ GetAttributes b →
  ¬ reserved_key b (Name a) →
  buildBlock_body order t b built !! Name a = Some (attribute_value b a).
Proof.
  intros Hnd Ha Hk. unfold reserved_key in Hk. unfold buildBlock_body.
  pose proof (attribute_loop_lookup b (GetAttributes b)
    (dump (foldl (λ c kv, add c kv.1 (NMap kv.2)) ∅ built) ∪ ∅) ∅ a Hnd Ha) as Hloop.
  destruct (foldl (buildBlock_attribute b) _ (GetAttributes b)) as [obj refs].
  simpl in Hloop. rewrite lookup_insert_ne by (intros Heq; rewrite <- Heq in Hk; tauto).
  destruct (decide (ID b = "")); [done|].
  rewrite lookup_insert_ne; [done|]. intros Heq. rewrite <- Heq in Hk. tauto.
Qed.

Lemma block_meta_lookups (b : Block) :
  let meta := block_meta order t b in
  let r := GetRange (GetMetadata b) in
  let refs := getAttributeRefsMeta t (Entries order (allRefs_of b)) in
  meta !! "filename" = Some (NString (GetLocalFilename r)) ∧
  meta !! "line_start" = Some (NInt (GetStartLine r)) ∧
  meta !! "line_end" = Some (NInt (GetEndLine r)) ∧
  meta !! "path" = None ∧
  meta !! "type" = None ∧
  meta !! "label" = (if decide (TypeLabel b = "") then None
                     else Some (NString (TypeLabel b))) ∧
  meta !! "references" = (if decide (refs = []) then None
                          else Some (NList (NMap <$> refs))).
Proof.
  unfold block_meta. simpl.
  destruct (getAttributeRefsMeta t _) as [|d refs]; simpl;
    destruct (decide (TypeLabel b = "")); simpl;
    repeat split; try reflexivity.
Qed.

(** C7, as amended. Take a key X that buildBlock does not write again
    after storing the children: X is no attribute name of the block, not
    [id] when the block has an identifier, and not [__tfmeta].  With one
    child of type X the document holds under X the document of that
    child; with two or more it holds the list of their documents in the
    order of the children; with none it holds nothing. *)
Theorem singleton_flattening (b : Block) (json : gmap string native) (X : string) :
  buildBlock order t b = Ok json →
  ¬ written_later b X →
  ∃ cs docs,
    getChildBlocks b = Ok cs ∧
    mapM (buildBlock order t) (filter (λ c, Type_ c = X) cs) = Ok docs ∧
    (∀ c, filter (λ c, Type_ c = X) cs = [c] →
       ∃ doc, buildBlock order t c = Ok doc ∧ json !! X = Some (NMap doc)) ∧
    ((2 ≤ length (filter (λ c, Type_ c = X) cs))%nat →
       json !! X = Some (NList (NMap <$> docs))) ∧
    (filter (λ c, Type_ c = X) cs = [] → json !! X = None).
Proof.
  intros Hb HX.
  destruct (buildBlock_Ok_inv _ _ Hb) as (cs & built & Hcs & Hbuilt & ->).
  pose proof (mapM_built_filter X cs built Hbuilt) as Hdocs.
  exists cs, (filter (λ kv, kv.1 = X) built).*2.
  rewrite buildBlock_body_children by done.
  split; [done|]. split; [done|].
  destruct (filter (λ c, Type_ c = X) cs) as [|c1 [|c2 rest]]; simpl in Hdocs.
  - injection Hdocs as <-. split; [done|]. split; [simpl; lia|done].
  - destruct (buildBlock order t c1) as [doc|] eqn:Hc1; simpl in Hdocs; [|done].
    injection Hdocs as <-. split; [|split; [simpl; lia|done]].
    intros c [= <-]. by exists doc.
  - destruct (buildBlock order t c1) as [d1|]; simpl in Hdocs; [|done].
    destruct (buildBlock order t c2) as [d2|]; simpl in Hdocs; [|done].
    destruct (mapM (buildBlock order t) rest) as [ds|]; simpl in Hdocs; [|done].
    injection Hdocs as <-. split; [done|]. split; done.
Qed.

(** C6. Let the builder hand the value of attribute [a] to the Value
    Converter, and let the converter reject it.  Then the value the
    builder stores under the name of [a] is the raw representation of
    [a]; the build does not panic on that account; and every other
    attribute is stored as it is without the failure, an accepted value
    as the value converted. *)
Theorem rejected_attribute_falls_back (b : Block) (a : Attribute) :
  a ∈ GetAttributes b →
  ¬ (Type_ b = "variable" ∧ Name a = "type") →
  (convertCtyToNativeValue (Value a)).2 = false →
  getAttributeValue a = GetRawValue a ∧
  (∀ obj refs,
     (buildBlock_attribute b (obj, refs) a).1 = <[Name a := GetRawValue a]> obj) ∧
  (∀ cs built,
     getChildBlocks b = Ok cs →
     mapM (λ child, json ←? buildBlock order t child ;; Ok (Type_ child, json)) cs
       = Ok built →
     ∃ json, buildBlock order t b = Ok json) ∧
  (∀ json,
     buildBlock order t b = Ok json →
     NoDup (Name <$> GetAttributes b) →
     (¬ reserved_key b (Name a) → json !! Name a = Some (GetRawValue a)) ∧
     (∀ a', a' ∈ GetAttributes b →
            ¬ (Type_ b = "variable" ∧ Name a' = "type") →
            (convertCtyToNativeValue (Value a')).2 = true →
            ¬ reserved_key b (Name a') →
            json !! Name a' = Some (convertCtyToNativeValue (Value a')).1)).
Proof.
  intros Ha Hnot Hrej.
  assert (Hraw : getAttributeValue a = GetRawValue a).
  { unfold getAttributeValue. destruct (convertCtyToNativeValue (Value a)) as [raw ok].
    simpl in Hrej. by subst ok. }
  assert (Hval : attribute_value b a = GetRawValue a).
  { unfold attribute_value. by destruct (decide _). }
  split; [done|]. split; [|split].
  - intros obj refs. by rewrite buildBlock_attribute_eq, Hval.
  - intros cs built Hcs Hbuilt. rewrite buildBlock_eq, Hcs. simpl.
    rewrite Hbuilt. simpl. by eexists.
  - intros json Hb Hnd.
    destruct (buildBlock_Ok_inv _ _ Hb) as (cs & built & _ & _ & ->).
    split.
    + intros Hk. by rewrite buildBlock_body_attribute, Hval.
    + intros a' Ha' Hnot' Hok Hk. rewrite buildBlock_body_attribute by done.
      f_equal. unfold attribute_value, getAttributeValue.
      destruct (decide _); [done|].
      destruct (convertCtyToNativeValue (Value a')) as [raw ok].
      simpl in *. by subst ok.
Qed.

(** C4, as amended. Let an attribute of block A hold the reference string
    of block B, and let [t] be the converter when the metadata of A is
    built, with no block entered under the empty string.  B's reference
    string is looked up exactly once.  If the index then holds B under it,
    the [references] list of A has one descriptor for it, with B's id,
    type label and name label; if the index holds nothing under it, it
    adds no entry.  When no reference of A resolves, the [references] key
    is absent. *)
Theorem references_metadata (A B : Block) (a : Attribute) (json : gmap string native) :
  buildBlock order t A = Ok json →
  a ∈ GetAttributes A →
  Reference B ∈ AllReferences a →
  blocksByReference t !! "" = None →
  ∃ meta l1 l2,
    json !! "__tfmeta" = Some (NMap meta) ∧
    range_keys order (allRefs_of A) = l1 ++ Reference B :: l2 ∧
    (Reference B ∉ l1) ∧ (Reference B ∉ l2) ∧
    (blocksByReference t !! Reference B = Some B →
     meta !! "references"
     = Some (NList (NMap <$> getAttributeRefsMeta t l1
                             ++ refDescriptor B :: getAttributeRefsMeta t l2)) ∧
     refDescriptor B !! "id" = Some (NString (ID B)) ∧
     refDescriptor B !! "label" = Some (NString (TypeLabel B)) ∧
     refDescriptor B !! "name" = Some (NString (NameLabel B))) ∧
    (blocksByReference t !! Reference B = None →
     meta !! "references"
     = (let refs := getAttributeRefsMeta t l1 ++ getAttributeRefsMeta t l2 in
        if decide (refs = []) then None else Some (NList (NMap <$> refs)))) ∧
    ((∀ a' r, a' ∈ GetAttributes A → r ∈ AllReferences a' →
              blocksByReference t !! r = None) →
     meta !! "references" = None).
Proof.
  intros Hb Ha Hr Hempty.
  destruct (buildBlock_Ok_inv _ _ Hb) as (cs & built & _ & _ & ->).
  assert (Hin : Reference B ∈ range_keys order (allRefs_of A)).
  { apply range_keys_elem_of, allRefs_of_spec. eauto. }
  destruct (NoDup_split_at _ _ (range_keys_NoDup order (allRefs_of A)) Hin)
    as (l1 & l2 & Hsplit & Hl1 & Hl2).
  exists (block_meta order t A), l1, l2.
  rewrite buildBlock_body_tfmeta.
  destruct (block_meta_lookups A) as (_ & _ & _ & _ & _ & _ & Hrefs).
  simpl in Hrefs. rewrite getAttributeRefsMeta_Entries in Hrefs by done.
  split; [done|]. split; [done|]. split; [done|]. split; [done|].
  split; [|split].
  - intros HB. split; [|done].
    rewrite Hrefs, Hsplit, getAttributeRefsMeta_app, getAttributeRefsMeta_cons, HB.
    clear Hrefs. case_decide as Hnil; [|done].
    by apply app_eq_nil in Hnil as [_ ?].
  - intros Hnone.
    by rewrite Hrefs, Hsplit, getAttributeRefsMeta_app, getAttributeRefsMeta_cons, Hnone.
  - intros Hnone. rewrite Hrefs. rewrite getAttributeRefsMeta_unresolved; [done|].
    intros r Hin'. apply range_keys_elem_of, allRefs_of_spec in Hin' as (a' & Ha' & Hr').
    eauto.
Qed.

End Builder.

Lemma singleton_flattening_witness :
  ∃ doc, buildBlock canonical_order (NewTerraformConverter []) ingress_instance = Ok doc ∧
         buildBlock_body canonical_order (NewTerraformConverter [])
           (security_group [] [ingress_instance]) [("ingress", doc)] !! "ingress"
         = Some (NMap doc).
Proof.
  destruct (singleton_flattening canonical_order (NewTerraformConverter [])
              (security_group [] [ingress_instance])
              (buildBlock_body canonical_order (NewTerraformConverter [])
                 (security_group [] [ingress_instance])
                 [("ingress", buildBlock_body canonical_order (NewTerraformConverter [])
                                ingress_instance [])])
              "ingress")
    as (cs & docs & Hcs & _ & Hone & _).
  - vm_compute. reflexivity.
  - unfold written_later. simpl. intros [Hin|[[Hid _]|Hmeta]]; try discriminate.
    by apply elem_of_nil in Hin.
  - assert (getChildBlocks (security_group [] [ingress_instance]) = Ok [ingress_instance])
      as Hcs' by reflexivity.
    rewrite Hcs' in Hcs. injection Hcs as <-.
    destruct (Hone ingress_instance) as (doc & Hdoc & Hlookup); [reflexivity|].
    exists doc. split; [exact Hdoc|].
    assert (doc = buildBlock_body canonical_order (NewTerraformConverter [])
                    ingress_instance []) as Hd.
    { assert (buildBlock canonical_order (NewTerraformConverter []) ingress_instance
              = Ok (buildBlock_body canonical_order (NewTerraformConverter [])
                      ingress_instance [])) as Heq by (vm_compute; reflexivity).
      congruence. }
    rewrite Hd at 1. rewrite Hlookup. reflexivity.
Defined.

(** Two children of one type are stored as a list of two documents. *)
Example two_children_are_a_list :
  match buildBlock canonical_order (NewTerraformConverter [])
          (security_group []
             [ingress_instance;
              mkBlock "ingress" "" "" "" "aws_security_group.web.ingress" "ingress"
                [] [] (at_lines 8 9 "ingress") None]) with
  | Ok json =>
      (λ v, match v with
            | NList l => (λ d, dig ["__tfmeta"; "line_start"] d) <$> l
            | _ => []
            end) <$> json !! "ingress"
  | Panic _ => None
  end = Some [Some (NInt 4); Some (NInt 8)].
Proof. vm_compute. reflexivity. Qed.

(** C7 as stated fails: [security_group_both] has exactly one child of
    type [ingress], and its document holds under [ingress] the value of
    the attribute of that name, an empty list. *)
Lemma attribute_replaces_child_document :
  ¬ (∀ order t b json X c,
       buildBlock order t b = Ok json →
       (cs ←? getChildBlocks b ;; Ok (filter (λ c, Type_ c = X) cs)) = Ok [c] →
       ∃ doc, buildBlock order t c = Ok doc ∧ json !! X = Some (NMap doc)).
Proof.
  intros H.
  destruct (H canonical_order (NewTerraformConverter []) security_group_both
              (buildBlock_body canonical_order (NewTerraformConverter [])
                 security_group_both
                 [("ingress", buildBlock_body canonical_order (NewTerraformConverter [])
                                ingress_instance [])])
              "ingress" ingress_instance)
    as (doc & _ & Hlookup).
  - vm_compute. reflexivity.
  - vm_compute. reflexivity.
  - assert (buildBlock_body canonical_order (NewTerraformConverter [])
              security_group_both
              [("ingress", buildBlock_body canonical_order (NewTerraformConverter [])
                             ingress_instance [])] !! "ingress"
            = Some (NList [])) as Hlist by (vm_compute; reflexivity).
    rewrite Hlist in Hlookup. discriminate Hlookup.
Qed.

Lemma rejected_attribute_falls_back_witness :
  getAttributeValue ports_attribute = NString "toset([80, 443])" ∧
  ∃ json,
    buildBlock canonical_order (NewTerraformConverter []) instance_with_ports = Ok json ∧
    json !! "ports" = Some (NString "toset([80, 443])") ∧
    json !! "count" = Some (NInt 3).
Proof.
  destruct (rejected_attribute_falls_back canonical_order (NewTerraformConverter [])
              instance_with_ports ports_attribute)
    as (Hraw & _ & Hbuild & Hjson).
  - left.
  - intros [Hty _]. discriminate Hty.
  - reflexivity.
  - split; [exact Hraw|].
    destruct (Hbuild [] [] eq_refl eq_refl) as [json Hb].
    exists json. split; [exact Hb|].
    destruct (Hjson json Hb) as [Hports Hothers].
    + simpl. repeat constructor; [|apply not_elem_of_nil].
      intros Hin. apply list_elem_of_singleton in Hin. discriminate Hin.
    + split.
      * apply Hports. intros [[Hid _]|Hmeta]; discriminate.
      * apply (Hothers count_attribute).
        -- right. left.
        -- intros [Hty _]. discriminate Hty.
        -- reflexivity.
        -- intros [[Hid _]|Hmeta]; discriminate.
Defined.

Lemma references_metadata_witness :
  ∃ meta,
    buildBlock_body canonical_order after_bucket bucket_policy [] !! "__tfmeta"
      = Some (NMap meta) ∧
    meta !! "references" = Some (NList [NMap (refDescriptor s3_bucket_main)]).
Proof.
  destruct (references_metadata canonical_order after_bucket bucket_policy
              s3_bucket_main bucket_attribute
              (buildBlock_body canonical_order after_bucket bucket_policy []))
    as (meta & l1 & l2 & Hmeta & Hsplit & _ & _ & Hsome & _).
  - vm_compute. reflexivity.
  - left.
  - left.
  - vm_compute. reflexivity.
  - exists meta. split; [exact Hmeta|].
    assert (Hreg : blocksByReference after_bucket !! Reference s3_bucket_main
                   = Some s3_bucket_main) by (vm_compute; reflexivity).
    destruct (Hsome Hreg) as [Hrefs _]. rewrite Hrefs.
    assert (Hkeys : range_keys canonical_order (allRefs_of bucket_policy)
                    = ["aws_s3_bucket.main"]) by (vm_compute; reflexivity).
    rewrite Hkeys in Hsplit.
    destruct l1 as [|x l1]; [|destruct l1; discriminate Hsplit].
    destruct l2; [reflexivity|discriminate Hsplit].
Defined.

(** C4 as stated fails: the variable of the first module is entered in the
    index before the metadata of [named_bucket] is built, and an attribute
    of [named_bucket] holds its reference string; but the variable of the
    second module is entered later under the same string, and the one
    descriptor of [named_bucket] holds the id of that second variable. *)
Lemma later_registration_replaces_earlier :
  Reference (variable_name "id-root") ∈ AllReferences name_attribute ∧
  match VisitJSON canonical_order (NewTerraformConverter two_modules) with
  | Ok st =>
      (λ kv, (dig ["__tfmeta"; "path"] kv.2,
              dig ["__tfmeta"; "references"] kv.2)) <$> jsonOut st
  | Panic _ => []
  end
  = [ (Some (NString "variable.name"), None);
      (Some (NString "variable.name"), None);
      (Some (NString "aws_s3_bucket.named"),
       Some (NList [NMap (refDescriptor (variable_name "id-child"))])) ] ∧
  refDescriptor (variable_name "id-child") !! "id" = Some (NString "id-child") ∧
  refDescriptor (variable_name "id-root") !! "id" = Some (NString "id-root").
Proof.
  split; [left|]. split; [vm_compute; reflexivity|]. split; reflexivity.
Qed.

(** ** Walker: visitBlock *)

Section Visit.
Context (order : MapOrder) (b : Block) (parentPath : string).

(** A visit enters the visited block in the index, whatever its type. *)
Lemma visitBlock_converter (st st' : conversion) :
  visitBlock order b parentPath st = Ok st' →
  converter st' = register b (converter st).
Proof.
  unfold visitBlock. destruct (decide _); [|by intros [= <-]].
  destruct (buildBlock _ _ b) as [json|]; simpl; [|done].
  destruct (json !! "__tfmeta") as [[| | | | | |meta]|]; try done.
  destruct (decide _); by intros [= <-].
Qed.

(** A block of a visited type is built with the index that already holds
    it, and its document is appended to the output. *)
Lemma visitBlock_visited (st st' : conversion) :
  Type_ b ∈ visited_types →
  visitBlock order b parentPath st = Ok st' →
  ∃ json,
    buildBlock order (register b (converter st)) b = Ok json ∧
    st' = {| converter := register b (converter st);
             jsonOut := jsonOut st ++
               [(top_key b,
                 NMap (<["__tfmeta" :=
                          NMap (top_meta order (register b (converter st)) b parentPath)]>
                       json))];
             logged := logged st |}.
Proof.
  intros Hty. unfold visitBlock. destruct (decide _) as [_|]; [|done].
  fold (register b (converter st)).
  destruct (buildBlock _ _ b) as [json|] eqn:Hb; simpl; [|done].
  destruct (buildBlock_Ok_inv _ _ _ _ Hb) as (cs & built & _ & _ & ->).
  rewrite buildBlock_body_tfmeta. unfold top_meta, top_key.
  intros H. eexists. split; [done|].
  destruct (decide _); by injection H as <-.
Qed.

Lemma top_meta_lookups (t : terraformConverter) :
  let meta := top_meta order t b parentPath in
  let r := GetRange (GetMetadata b) in
  let refs := getAttributeRefsMeta t (Entries order (allRefs_of b)) in
  meta !! "filename" = Some (NString (GetLocalFilename r)) ∧
  meta !! "line_start" = Some (NInt (GetStartLine r)) ∧
  meta !! "line_end" = Some (NInt (GetEndLine r)) ∧
  meta !! "path" = Some (NString (getPath b parentPath)) ∧
  meta !! "type" = (if decide (Type_ b = "data" ∨ Type_ b = "resource")
                    then Some (NString (Type_ b)) else None) ∧
  meta !! "label" = (if decide (TypeLabel b = "") then None
                     else Some (NString (TypeLabel b))) ∧
  meta !! "references" = (if decide (refs = []) then None
                          else Some (NList (NMap <$> refs))).
Proof.
  destruct (block_meta_lookups order t b) as (H1 & H2 & H3 & H4 & H5 & H6 & H7).
  unfold top_meta. simpl.
  destruct (decide (Type_ b = "data" ∨ Type_ b = "resource"));
    repeat split;
    repeat (rewrite lookup_insert_ne by done);
    rewrite ?lookup_insert_eq; done.
Qed.

End Visit.

(** ** Metadata keys *)

(** C3, as amended. The metadata of every node holds [filename],
    [line_start] and [line_end].  [path] is held by the top-level nodes,
    which visitBlock appends to the output, and by no node that buildBlock
    returns, hence by no child node.  [type] is held by top-level [data]
    and [resource] nodes only; [label] and [references] are held when the
    block has a type label and when some entry resolves. *)
Theorem tfmeta_keys (order : MapOrder) (t : terraformConverter) (b : Block) :
  let r := GetRange (GetMetadata b) in
  (∀ json, buildBlock order t b = Ok json →
     ∃ meta, json !! "__tfmeta" = Some (NMap meta) ∧
       meta !! "filename" = Some (NString (GetLocalFilename r)) ∧
       meta !! "line_start" = Some (NInt (GetStartLine r)) ∧
       meta !! "line_end" = Some (NInt (GetEndLine r)) ∧
       meta !! "path" = None ∧
       meta !! "type" = None ∧
       (is_Some (meta !! "label") ↔ TypeLabel b ≠ "") ∧
       (is_Some (meta !! "references") ↔
        getAttributeRefsMeta t (Entries order (allRefs_of b)) ≠ [])) ∧
  (∀ parentPath st st',
     Type_ b ∈ visited_types →
     register b (converter st) = t →
     visitBlock order b parentPath st = Ok st' →
     ∃ key json meta,
       jsonOut st' = jsonOut st ++ [(key, NMap json)] ∧
       json !! "__tfmeta" = Some (NMap meta) ∧
       meta !! "filename" = Some (NString (GetLocalFilename r)) ∧
       meta !! "line_start" = Some (NInt (GetStartLine r)) ∧
       meta !! "line_end" = Some (NInt (GetEndLine r)) ∧
       meta !! "path" = Some (NString (getPath b parentPath)) ∧
       (is_Some (meta !! "type") ↔ Type_ b = "data" ∨ Type_ b = "resource") ∧
       (is_Some (meta !! "label") ↔ TypeLabel b ≠ "") ∧
       (is_Some (meta !! "references") ↔
        getAttributeRefsMeta t (Entries order (allRefs_of b)) ≠ [])).
Proof.
  intros r. split.
  - intros json Hb.
    destruct (buildBlock_Ok_inv _ _ _ _ Hb) as (cs & built & _ & _ & ->).
    exists (block_meta order t b). rewrite buildBlock_body_tfmeta.
    destruct (block_meta_lookups order t b) as (H1 & H2 & H3 & H4 & H5 & H6 & H7).
    split; [done|]. repeat (split; [done|]).
    split; eapply is_Some_unless; eauto.
  - intros parentPath st st' Hty <- Hv.
    destruct (visitBlock_visited _ _ _ _ _ Hty Hv) as (json & Hb & ->). simpl.
    eexists _, _, _. split; [done|]. rewrite lookup_insert_eq. split; [done|].
    destruct (top_meta_lookups order b parentPath (register b (converter st)))
      as (H1 & H2 & H3 & H4 & H5 & H6 & H7).
    repeat (split; [done|]).
    split; [eapply is_Some_when; eauto|].
    split; eapply is_Some_unless; eauto.
Qed.

Lemma tfmeta_keys_witness :
  (∃ meta,
     buildBlock_body canonical_order (converter fresh) versioning [] !! "__tfmeta"
       = Some (NMap meta) ∧
     meta !! "filename" = Some (NString "main.tf") ∧
     meta !! "path" = None) ∧
  (∃ st' key json meta,
     visitBlock canonical_order bucket_with_versioning "" fresh = Ok st' ∧
     jsonOut st' = [(key, NMap json)] ∧
     json !! "__tfmeta" = Some (NMap meta) ∧
     meta !! "path" = Some (NString "aws_s3_bucket.main")).
Proof.
  split.
  - destruct (proj1 (tfmeta_keys canonical_order (converter fresh) versioning)
                _ eq_refl) as (meta & H0 & H1 & _ & _ & H4 & _).
    exists meta. auto.
  - destruct (visitBlock canonical_order bucket_with_versioning "" fresh)
      as [st'|msg] eqn:Hv; [|by vm_compute in Hv].
    destruct (proj2 (tfmeta_keys canonical_order
                       (register bucket_with_versioning (converter fresh))
                       bucket_with_versioning) "" fresh st')
      as (key & json & meta & H0 & H1 & _ & _ & _ & H5 & _).
    + apply list_elem_of_In. simpl. tauto.
    + reflexivity.
    + exact Hv.
    + exists st', key, json, meta. auto.
Defined.

(** C3 as stated fails: in the document of a bucket with a nested
    [versioning] block the top-level node has a [path] and the child node,
    whose metadata has its [filename], has none. *)
Lemma child_node_has_no_path :
  match VisitJSON canonical_order
          (NewTerraformConverter [{| GetBlocks := [bucket_with_versioning] |}]) with
  | Ok st =>
      (λ kv, (kv.1,
              dig ["__tfmeta"; "path"] kv.2,
              dig ["versioning"; "__tfmeta"; "filename"] kv.2,
              dig ["versioning"; "__tfmeta"; "path"] kv.2)) <$> jsonOut st
  | Panic _ => []
  end
  = [("aws_s3_bucket",
      Some (NString "aws_s3_bucket.main"),
      Some (NString "main.tf"),
      None)].
Proof. vm_compute. reflexivity. Qed.

(** ** Path Namer: getModulePath *)

Lemma prefixes_of_lookup (bs : list Block) (prefixes : gmap string unit) (k : string) :
  is_Some (prefixes_of bs prefixes !! k) ↔
  is_Some (prefixes !! k) ∨ (k ≠ "" ∧ k ∈ getModuleName <$> bs).
Proof.
  revert prefixes. induction bs as [|b bs IH]; intros prefixes; simpl.
  - split; [auto|]. intros [|[_ Hk]]; [done|]. by apply elem_of_nil in Hk.
  - rewrite IH, elem_of_cons. destruct (decide (getModuleName b = "")) as [He|Hne].
    + split; [tauto|]. intros [|[Hk [->|]]]; auto. done.
    + rewrite lookup_insert. destruct (decide (getModuleName b = k)) as [<-|].
      * split; [auto|]. intros _. left. by eexists.
      * split; [tauto|]. intros [|[Hk [->|]]]; auto. done.
Qed.

Section ModulePath.
Context (order : MapOrder) (m : Module).

(** The prefixes are the non-empty names the root blocks report. *)
Lemma module_names_prefixes (k : string) :
  k ∈ range_keys order (prefixes_of (GetBlocks m) ∅) ↔ k ∈ module_names m.
Proof.
  rewrite range_keys_elem_of, prefixes_of_lookup, lookup_empty.
  unfold module_names. rewrite list_elem_of_filter.
  split; [intros [[? ?]|]; done|auto].
Qed.

Lemma getModulePath_eq :
  getModulePath order m =
    let keys := range_keys order (prefixes_of (GetBlocks m) ∅) in
    if decide (1 < length keys)%nat then Panic "found too many prefixes!"
    else match keys with
         | key :: _ => Ok key
         | [] => Ok ""
         end.
Proof.
  unfold getModulePath. fold (prefixes_of (GetBlocks m) ∅).
  by rewrite range_keys_length.
Qed.

(** C5. A module whose root blocks report two distinct non-empty names
    makes getModulePath panic, and with it the whole conversion.  A module
    whose root blocks report one non-empty name has that name as its path,
    and a module whose root blocks report none has the empty path. *)
Theorem getModulePath_prefixes :
  (∀ n1 n2, n1 ∈ module_names m → n2 ∈ module_names m → n1 ≠ n2 →
     getModulePath order m = Panic "found too many prefixes!" ∧
     ∀ t, m ∈ modules t → ∃ msg, VisitJSON order t = Panic msg) ∧
  (∀ n, n ∈ module_names m → (∀ n', n' ∈ module_names m → n' = n) →
     getModulePath order m = Ok n) ∧
  (module_names m = [] → getModulePath order m = Ok "").
Proof.
  pose proof (range_keys_NoDup order (prefixes_of (GetBlocks m) ∅)) as Hnd.
  pose proof module_names_prefixes as Hkeys.
  rewrite getModulePath_eq. simpl.
  destruct (range_keys order (prefixes_of (GetBlocks m) ∅)) as [|k1 [|k2 keys]]
    eqn:Ekeys; simpl.
  - split; [|split; [|done]].
    + intros n1 n2 Hn1 _ _. apply Hkeys in Hn1. by apply elem_of_nil in Hn1.
    + intros n Hn _. apply Hkeys in Hn. by apply elem_of_nil in Hn.
  - split; [|split].
    + intros n1 n2 Hn1 Hn2 Hne.
      apply Hkeys, list_elem_of_singleton in Hn1.
      apply Hkeys, list_elem_of_singleton in Hn2. congruence.
    + intros n Hn _. apply Hkeys, list_elem_of_singleton in Hn. by subst.
    + intros Hnil. assert (Hk : k1 ∈ module_names m) by (apply Hkeys; left).
      rewrite Hnil in Hk. by apply elem_of_nil in Hk.
  - assert (Hpanic : ∀ st, visitModule order st m = Panic "found too many prefixes!").
    { intros st. unfold visitModule. by rewrite getModulePath_eq, Ekeys. }
    split; [|split].
    + intros n1 n2 _ _ _. split; [done|].
      intros t Hin. unfold VisitJSON. eapply foldM_panics; [exact Hin|].
      intros s. exists "found too many prefixes!". apply Hpanic.
    + intros n Hn Hall. exfalso.
      apply NoDup_cons in Hnd as [Hk1 _]. apply Hk1.
      rewrite (Hall k1), <- (Hall k2); [left| |]; apply Hkeys; [right; left|left].
    + intros Hnil. assert (Hk : k1 ∈ module_names m) by (apply Hkeys; left).
      rewrite Hnil in Hk. by apply elem_of_nil in Hk.
Qed.

End ModulePath.

(** The name of a chain of two module inclusions. *)
Example getModuleName_nested :
  getModuleName (bucket_in (module_call "lambda" (Some (module_call "notify_slack_qa" None))))
  = "module.notify_slack_qa.module.lambda".
Proof. reflexivity. Qed.

Lemma getModulePath_prefixes_witness :
  getModulePath canonical_order torn_module = Panic "found too many prefixes!" ∧
  (∃ msg, VisitJSON canonical_order (NewTerraformConverter [infra_module; torn_module])
          = Panic msg) ∧
  getModulePath canonical_order infra_module = Ok "module.infra" ∧
  getModulePath canonical_order {| GetBlocks := [s3_bucket_main] |} = Ok "".
Proof.
  assert (Htorn : module_names torn_module = ["module.infra"; "module.other"])
    by reflexivity.
  assert (Hinfra : module_names infra_module = ["module.infra"; "module.infra"])
    by reflexivity.
  destruct (getModulePath_prefixes canonical_order torn_module) as [Hmany _].
  destruct (Hmany "module.infra" "module.other") as [Hpanic Hvisit].
  { rewrite Htorn. left. }
  { rewrite Htorn. right. left. }
  { discriminate. }
  split; [exact Hpanic|]. split.
  { apply Hvisit. simpl. right. left. }
  split.
  - apply (getModulePath_prefixes canonical_order infra_module).
    + rewrite Hinfra. left.
    + rewrite Hinfra. intros n' Hn'.
      apply elem_of_cons in Hn' as [->|Hn']; [done|].
      by apply list_elem_of_singleton in Hn'.
  - by apply (getModulePath_prefixes canonical_order {| GetBlocks := [s3_bucket_main] |}).
Defined.

(** ** The reference index during a walk *)

Lemma register_lookup (b : Block) (t : terraformConverter) (r : string) :
  blocksByReference (register b t) !! r
  = if decide (Reference b = r) then Some b else blocksByReference t !! r.
Proof. apply lookup_insert. Qed.

Section Walk.
Context (order : MapOrder) (ms : list Module).

(** The index of a walk state holds top-level blocks only, each under its
    own reference string. *)
Lemma walk_state_index (t : terraformConverter) :
  walk_state ms t →
  ∀ r blk, blocksByReference t !! r = Some blk →
           blk ∈ top_blocks ms ∧ Reference blk = r.
Proof.
  induction 1 as [|t b _ IH Hb]; intros r blk.
  - simpl. by rewrite lookup_empty.
  - rewrite register_lookup. destruct (decide (Reference b = r)) as [<-|]; [|apply IH].
    by intros [= <-].
Qed.

(** When no top-level block has the empty reference string, no state of
    the walk holds a block under the empty string. *)
Lemma walk_state_no_empty_key (t : terraformConverter) :
  (∀ b, b ∈ top_blocks ms → Reference b ≠ "") →
  walk_state ms t →
  blocksByReference t !! "" = None.
Proof.
  intros Hne Hwalk.
  destruct (blocksByReference t !! "") as [blk|] eqn:E; [|done].
  destruct (walk_state_index t Hwalk _ _ E) as [Hin Href].
  by destruct (Hne blk Hin).
Qed.

Lemma visitBlock_walk (b : Block) (parentPath : string) (st st' : conversion) :
  b ∈ top_blocks ms →
  walk_invariant order ms st →
  visitBlock order b parentPath st = Ok st' →
  walk_invariant order ms st'.
Proof.
  intros Hb [Hwalk Hout] Hv.
  assert (Hwalk' : walk_state ms (register b (converter st))) by by constructor.
  destruct (decide (Type_ b ∈ visited_types)) as [Hty|Hty].
  - destruct (visitBlock_visited _ _ _ _ _ Hty Hv) as (json & Hjson & ->).
    split; [done|]. simpl. apply Forall_app. split; [done|].
    apply Forall_singleton. by exists b, (register b (converter st)), json, parentPath.
  - unfold visitBlock in Hv. destruct (decide _); [done|].
    injection Hv as <-. by split.
Qed.

Lemma visitBlocks_walk (bs : list Block) (parentPath : string) (st st' : conversion) :
  (∀ b, b ∈ bs → b ∈ top_blocks ms) →
  walk_invariant order ms st →
  foldM (λ st b, visitBlock order b parentPath st) st bs = Ok st' →
  walk_invariant order ms st'.
Proof.
  revert st. induction bs as [|b bs IH]; intros st Hbs Hinv H; simpl in H.
  - by injection H as <-.
  - destruct (visitBlock order b parentPath st) as [st1|] eqn:Hv; simpl in H; [|done].
    apply (IH st1); [| |done].
    + intros b' Hb'. apply Hbs. by right.
    + eapply visitBlock_walk; [|done|done]. apply Hbs. left.
Qed.

Lemma visitModules_walk (some : list Module) (st st' : conversion) :
  (∀ m, m ∈ some → m ∈ ms) →
  walk_invariant order ms st →
  foldM (visitModule order) st some = Ok st' →
  walk_invariant order ms st'.
Proof.
  revert st. induction some as [|m some IH]; intros st Hsub Hinv H; simpl in H.
  - by injection H as <-.
  - destruct (visitModule order st m) as [st1|] eqn:Hv; simpl in H; [|done].
    apply (IH st1); [intros m' Hm'; apply Hsub; by right| |done].
    unfold visitModule in Hv.
    destruct (getModulePath order m) as [path|]; simpl in Hv; [|done].
    eapply visitBlocks_walk; [|done|done].
    intros b Hb. unfold top_blocks. apply list_elem_of_bind.
    exists m. split; [done|]. apply Hsub. left.
Qed.

(** C9. A visit enters in the reference index the visited block and
    nothing else, so the index of every state of a walk holds top-level
    blocks only; every document of the output is built in such a state,
    its child nodes with it.  A string that is the reference string of no
    top-level block, such as that of a nested child, resolves in no state
    of the walk and adds no descriptor to any metadata; every descriptor
    describes a top-level block. *)
Theorem nested_blocks_never_registered :
  (∀ b parentPath st st',
     visitBlock order b parentPath st = Ok st' →
     blocksByReference (converter st')
     = <[Reference b := b]> (blocksByReference (converter st))) ∧
  (∀ st', VisitJSON order (NewTerraformConverter ms) = Ok st' →
     walk_state ms (converter st') ∧ Forall (built_in_walk order ms) (jsonOut st')) ∧
  (∀ t, walk_state ms t →
     (∀ r blk, blocksByReference t !! r = Some blk →
               blk ∈ top_blocks ms ∧ Reference blk = r) ∧
     (∀ r, r ∉ Reference <$> top_blocks ms →
           blocksByReference t !! r = None ∧
           ∀ refs, getAttributeRefsMeta t refs
                   = getAttributeRefsMeta t (filter (λ e, e ≠ r) refs)) ∧
     (∀ refs d, d ∈ getAttributeRefsMeta t refs →
                ∃ blk, blk ∈ top_blocks ms ∧ Reference blk ∈ refs ∧
                       d = refDescriptor blk)).
Proof.
  split; [|split].
  - intros b parentPath st st' Hv. by rewrite (visitBlock_converter _ _ _ _ _ Hv).
  - intros st' Hv. unfold VisitJSON in Hv. simpl in Hv.
    eapply (visitModules_walk ms); [done| |exact Hv].
    split; [constructor|constructor].
  - intros t Hwalk. pose proof (walk_state_index t Hwalk) as Hidx.
    split; [done|]. split.
    + intros r Hr.
      assert (Hnone : blocksByReference t !! r = None).
      { destruct (blocksByReference t !! r) as [blk|] eqn:E; [|done].
        destruct (Hidx r blk E) as [Hin <-]. exfalso. apply Hr.
        by apply list_elem_of_fmap_2. }
      split; [done|]. intros refs. by apply getAttributeRefsMeta_filter.
    + intros refs d Hd.
      destruct (getAttributeRefsMeta_elem_of t refs d Hd) as (r & blk & Hr & Hblk & ->).
      destruct (Hidx r blk Hblk) as [Hin <-]. by exists blk.
Qed.

End Walk.

Lemma nested_blocks_never_registered_witness :
  let ms := [{| GetBlocks := [bucket_with_versioning] |}] in
  let t := register bucket_with_versioning (NewTerraformConverter ms) in
  blocksByReference t !! Reference versioning = None ∧
  getAttributeRefsMeta t [Reference versioning; Reference bucket_with_versioning]
  = getAttributeRefsMeta t [Reference bucket_with_versioning].
Proof.
  intros ms t.
  destruct (nested_blocks_never_registered canonical_order ms) as (_ & _ & Hwalk).
  destruct (Hwalk t) as (_ & Hnested & _).
  - constructor; [constructor|]. left.
  - destruct (Hnested (Reference versioning)) as [Hnone Hrefs].
    + intros Hin. apply list_elem_of_singleton in Hin. discriminate Hin.
    + split; [exact Hnone|].
      exact (Hrefs [Reference versioning; Reference bucket_with_versioning]).
Defined.

(** * Further properties *)

(** ** stringSet.Add *)

(** X1. Add makes the set hold the string, with its flag set, and leaves
    every other string as it was; adding a string a second time changes
    nothing. *)
Theorem Add_membership (s : gmap string bool) (str : string) :
  Add s str !! str = Some true ∧
  (∀ k, k ≠ str → Add s str !! k = s !! k) ∧
  dom (Add s str) = {[str]} ∪ dom s ∧
  Add (Add s str) str = Add s str.
Proof.
  assert (Hin : Add s str !! str = Some true).
  { unfold Add. destruct (s !! str) as [[|]|] eqn:E; simpl;
      [done|by rewrite lookup_insert_eq..]. }
  assert (Hother : ∀ k, k ≠ str → Add s str !! k = s !! k).
  { intros k Hk. unfold Add. destruct (negb _); [|done]. by rewrite lookup_insert_ne. }
  split; [done|]. split; [done|]. split.
  - apply set_eq. intros k. rewrite elem_of_union, elem_of_singleton, !elem_of_dom.
    destruct (decide (k = str)) as [->|Hne].
    + rewrite Hin. split; [auto|]. intros _. by eexists.
    + rewrite Hother by done. split; [auto|]. by intros [|].
  - unfold Add at 1. by rewrite Hin.
Qed.

Lemma Add_membership_witness :
  Add (Add ∅ "var.name") "var.region" !! "var.name" = Add ∅ "var.name" !! "var.name".
Proof.
  apply (Add_membership (Add ∅ "var.name") "var.region"). discriminate.
Defined.

(** ** Value Converter *)

(** Induction on typed values, through the lists they nest. *)
Lemma ctyValue_nested_ind (P : ctyValue → Prop) :
  P CtyNull → P CtyUnknown → (∀ s, P (CtyString s)) → (∀ n, P (CtyNumber n)) →
  (∀ b, P (CtyBool b)) →
  (∀ items, Forall P items → P (CtyList items)) →
  (∀ members, Forall (λ kv, P kv.2) members → P (CtyObject members)) →
  (∀ items, P (CtySet items)) → P CtyCapsule →
  ∀ val, P val.
Proof.
  intros Hnull Hunk Hstr Hnum Hbool Hlist Hobj Hset Hcap.
  fix IH 1. intros [| |s|n|b|items|members|items|];
    [done|done|apply Hstr|apply Hnum|apply Hbool| | |apply Hset|done].
  - apply Hlist. induction items as [|item items IHitems]; constructor; [apply IH|done].
  - apply Hobj. induction members as [|[k v] members IHm]; constructor; [apply IH|done].
Qed.

Lemma convert_items_loop (items : list ctyValue) (acc : list native) :
  (fix items_loop (l : list ctyValue) (interfaceSlice : list native) : native * bool :=
     match l with
     | [] => (NList interfaceSlice, true)
     | item :: rest =>
         let (raw, ok) := convertCtyToNativeValue item in
         if ok then items_loop rest (interfaceSlice ++ [raw]) else (NNull, false)
     end) items acc
  = if forallb (λ v, (convertCtyToNativeValue v).2) items
    then (NList (acc ++ ((λ v, (convertCtyToNativeValue v).1) <$> items)), true)
    else (NNull, false).
Proof.
  revert acc. induction items as [|item items IH]; intros acc; simpl.
  - by rewrite app_nil_r.
  - destruct (convertCtyToNativeValue item) as [raw [|]]; simpl; [|done].
    rewrite IH. by rewrite <- app_assoc.
Qed.

Lemma convert_members_loop (members : list (string * ctyValue)) (acc : gmap string native) :
  (fix members_loop (l : list (string * ctyValue)) (interfaceMap : gmap string native)
     : native * bool :=
     match l with
     | [] => (NMap interfaceMap, true)
     | (key, v) :: rest =>
         let (raw, ok) := convertCtyToNativeValue v in
         if ok then members_loop rest (<[key := raw]> interfaceMap) else (NNull, false)
     end) members acc
  = if forallb (λ kv, (convertCtyToNativeValue kv.2).2) members
    then (NMap (foldl (λ m kv, <[kv.1 := (convertCtyToNativeValue kv.2).1]> m) acc members),
          true)
    else (NNull, false).
Proof.
  revert acc. induction members as [|[key v] members IH]; intros acc; simpl; [done|].
  destruct (convertCtyToNativeValue v) as [raw [|]]; simpl; [|done].
  by rewrite IH.
Qed.

Lemma convert_ok_supported (val : ctyValue) :
  (convertCtyToNativeValue val).2 = supported val ∧
  (supported val = false → (convertCtyToNativeValue val).1 = NNull).
Proof.
  induction val as [| |s|n|b|items IH|members IH|items|] using ctyValue_nested_ind;
    try (split; [done|]; done).
  - simpl. destruct (IsInt n); split; done.
  - change (convertCtyToNativeValue (CtyList items)) with
      ((fix items_loop (l : list ctyValue) (interfaceSlice : list native) : native * bool :=
          match l with
          | [] => (NList interfaceSlice, true)
          | item :: rest =>
              let (raw, ok) := convertCtyToNativeValue item in
              if ok then items_loop rest (interfaceSlice ++ [raw]) else (NNull, false)
          end) items []).
    rewrite convert_items_loop.
    change (supported (CtyList items)) with (forallb supported items).
    assert (Heq : forallb (λ v, (convertCtyToNativeValue v).2) items
                  = forallb supported items).
    { induction IH as [|v items [Hv _] _ IHitems]; simpl; [done|]. by rewrite Hv, IHitems. }
    rewrite Heq. destruct (forallb supported items); split; done.
  - change (convertCtyToNativeValue (CtyObject members)) with
      ((fix members_loop (l : list (string * ctyValue)) (interfaceMap : gmap string native)
          : native * bool :=
          match l with
          | [] => (NMap interfaceMap, true)
          | (key, v) :: rest =>
              let (raw, ok) := convertCtyToNativeValue v in
              if ok then members_loop rest (<[key := raw]> interfaceMap) else (NNull, false)
          end) members ∅).
    rewrite convert_members_loop.
    change (supported (CtyObject members))
      with (forallb (λ kv, supported kv.2) members).
    assert (Heq : forallb (λ kv, (convertCtyToNativeValue kv.2).2) members
                  = forallb (λ kv, supported kv.2) members).
    { induction IH as [|v items [Hv _] _ IHitems]; simpl; [done|]. by rewrite Hv, IHitems. }
    rewrite Heq. destruct (forallb (λ kv, supported kv.2) members); split; done.
Qed.

(** X2. The converter accepts a value exactly when no set and no opaque
    value occurs in it at any depth; null and unknown values are accepted
    wherever they occur, and a rejected value is returned as nil. *)
Theorem convert_accepts_supported (val : ctyValue) :
  (convertCtyToNativeValue val).2 = supported val ∧
  (supported val = false → (convertCtyToNativeValue val).1 = NNull).
Proof. apply convert_ok_supported. Qed.

Lemma convert_accepts_supported_witness :
  (convertCtyToNativeValue
     (CtyList [CtyString "a"; CtyObject [("ports", CtySet [CtyString "b"])]])).1 = NNull.
Proof.
  apply (convert_accepts_supported
           (CtyList [CtyString "a"; CtyObject [("ports", CtySet [CtyString "b"])]])).
  reflexivity.
Defined.

(** X3. A list or tuple whose elements are all accepted converts element
    by element: the native list has the converted elements, in the same
    order and number. *)
Theorem convert_list_elementwise (items : list ctyValue) :
  forallb supported items = true →
  convertCtyToNativeValue (CtyList items)
  = (NList ((λ v, (convertCtyToNativeValue v).1) <$> items), true).
Proof.
  intros Hall.
  change (convertCtyToNativeValue (CtyList items)) with
    ((fix items_loop (l : list ctyValue) (interfaceSlice : list native) : native * bool :=
        match l with
        | [] => (NList interfaceSlice, true)
        | item :: rest =>
            let (raw, ok) := convertCtyToNativeValue item in
            if ok then items_loop rest (interfaceSlice ++ [raw]) else (NNull, false)
        end) items []).
  rewrite convert_items_loop.
  assert (Heq : forallb (λ v, (convertCtyToNativeValue v).2) items = true).
  { rewrite <- Hall. clear Hall. induction items as [|v items IH]; simpl; [done|].
    by rewrite (proj1 (convert_ok_supported v)), IH. }
  by rewrite Heq.
Qed.

Lemma convert_list_elementwise_witness :
  convertCtyToNativeValue (CtyList [CtyString "a"; CtyNull; CtyNumber (BigFinite 3 0)])
  = (NList [NString "a"; NNull; NInt 3], true).
Proof.
  exact (convert_list_elementwise
           [CtyString "a"; CtyNull; CtyNumber (BigFinite 3 0)] eq_refl).
Defined.

Lemma members_fold_other (g : ctyValue → native) (members : list (string * ctyValue))
    (acc : gmap string native) (k : string) :
  k ∉ members.*1 →
  foldl (λ m kv, <[kv.1 := g kv.2]> m) acc members !! k = acc !! k.
Proof.
  revert acc. induction members as [|[k' v'] members IH]; intros acc Hk; simpl; [done|].
  rewrite fmap_cons, not_elem_of_cons in Hk. destruct Hk as [Hne Hk].
  rewrite IH by done. by rewrite lookup_insert_ne.
Qed.

Lemma members_fold_dom (g : ctyValue → native) (members : list (string * ctyValue))
    (acc : gmap string native) :
  dom (foldl (λ m kv, <[kv.1 := g kv.2]> m) acc members)
  = list_to_set members.*1 ∪ dom acc.
Proof.
  revert acc. induction members as [|[k v] members IH]; intros acc; simpl.
  - by rewrite (left_id_L ∅ (∪)).
  - rewrite IH, dom_insert_L. apply set_eq. intros x.
    rewrite !elem_of_union. tauto.
Qed.

(** X4. An object or map whose member values are all accepted converts
    to a native map with exactly the member keys; with distinct keys, as
    a map has them, each key holds the conversion of its value. *)
Theorem convert_object_memberwise (members : list (string * ctyValue)) :
  forallb (λ kv, supported kv.2) members = true →
  ∃ m, convertCtyToNativeValue (CtyObject members) = (NMap m, true) ∧
       dom m = list_to_set members.*1 ∧
       (NoDup members.*1 →
        ∀ k v, (k, v) ∈ members → m !! k = Some (convertCtyToNativeValue v).1).
Proof.
  intros Hall.
  change (convertCtyToNativeValue (CtyObject members)) with
    ((fix members_loop (l : list (string * ctyValue)) (interfaceMap : gmap string native)
        : native * bool :=
        match l with
        | [] => (NMap interfaceMap, true)
        | (key, v) :: rest =>
            let (raw, ok) := convertCtyToNativeValue v in
            if ok then members_loop rest (<[key := raw]> interfaceMap) else (NNull, false)
        end) members ∅).
  rewrite convert_members_loop.
  assert (Heq : forallb (λ kv, (convertCtyToNativeValue kv.2).2) members = true).
  { rewrite <- Hall. clear Hall. induction members as [|[k v] members IH]; simpl; [done|].
    by rewrite (proj1 (convert_ok_supported v)), IH. }
  rewrite Heq. eexists. split; [done|]. split.
  - rewrite (members_fold_dom (λ v, (convertCtyToNativeValue v).1)), dom_empty_L.
    apply (right_id_L ∅ (∪)).
  - clear. generalize (∅ : gmap string native).
    induction members as [|[k' v'] members IH]; intros acc Hnd k v Hin; simpl.
    + by apply elem_of_nil in Hin.
    + rewrite fmap_cons in Hnd. apply NoDup_cons in Hnd as [Hnotin Hnd].
      apply elem_of_cons in Hin as [[= -> ->]|Hin]; [|by apply IH].
      rewrite (members_fold_other (λ v, (convertCtyToNativeValue v).1)) by done.
      apply lookup_insert_eq.
Qed.

Lemma convert_object_memberwise_witness :
  ∃ m, convertCtyToNativeValue (CtyObject [("Name", CtyString "web"); ("Env", CtyUnknown)])
       = (NMap m, true) ∧
       m !! "Name" = Some (NString "web") ∧ m !! "Env" = Some NNull.
Proof.
  destruct (convert_object_memberwise [("Name", CtyString "web"); ("Env", CtyUnknown)] eq_refl)
    as (m & Hm & _ & Hlookup).
  exists m. split; [exact Hm|].
  assert (Hnd : NoDup [("Name", CtyString "web"); ("Env", CtyUnknown)].*1).
  { simpl. repeat constructor; [|apply not_elem_of_nil..].
    intros Hin. apply list_elem_of_singleton in Hin. discriminate Hin. }
  split.
  - apply (Hlookup Hnd "Name" (CtyString "web")). left.
  - apply (Hlookup Hnd "Env" CtyUnknown). right. left.
Defined.

(** ** Child Deduplicator *)

Lemma getChildBlocks_step_kept (st st' : dedupState) (block : Block) :
  getChildBlocks_step st block = Ok st' →
  (children st' = children st) ∨
  (Type_ block ≠ "dynamic" ∧ children st' = children st ++ [block]).
Proof.
  unfold getChildBlocks_step. destruct (decide _) as [|Hty].
  - destruct (getForEachCount block); simpl; [|done]. intros [= <-]. by left.
  - destruct (_ <=? _); [intros [= <-]; by right|].
    destruct (_ <? _); intros [= <-]; [by right|by left].
Qed.

Lemma foldM_getChildBlocks_sublist (l : list Block) (st st' : dedupState) :
  foldM getChildBlocks_step st l = Ok st' →
  ∃ kept, children st' = children st ++ kept ∧
          kept `sublist_of` filter (λ c, Type_ c ≠ "dynamic") l.
Proof.
  revert st. induction l as [|block rest IH]; intros st H; simpl in H.
  - injection H as <-. exists []. by rewrite app_nil_r.
  - destruct (getChildBlocks_step st block) as [st1|] eqn:E; simpl in H; [|done].
    destruct (IH _ H) as (kept & Hkept & Hsub).
    rewrite filter_cons.
    destruct (getChildBlocks_step_kept _ _ _ E) as [Heq|[Hty Heq]]; rewrite Heq in Hkept.
    + exists kept. split; [done|]. destruct (decide _); [by constructor|done].
    + exists (block :: kept). rewrite <- app_assoc in Hkept. split; [done|].
      destruct (decide _); [by constructor|done].
Qed.

(** X5. The children getChildBlocks returns are descendants of the block
    that are not templates, each taken at most once and in source order:
    nothing is added, reordered or repeated. *)
Theorem getChildBlocks_sublist (b : Block) (cs : list Block) :
  getChildBlocks b = Ok cs →
  cs `sublist_of` filter (λ c, Type_ c ≠ "dynamic") (AllBlocks b).
Proof.
  unfold getChildBlocks. intros H.
  destruct (foldM _ _ (AllBlocks b)) as [st|] eqn:E; simpl in H; [|done].
  injection H as <-.
  by destruct (foldM_getChildBlocks_sublist _ _ _ E) as (kept & -> & Hsub).
Qed.

Lemma getChildBlocks_sublist_witness :
  [ingress_instance; ingress_instance]
  `sublist_of` filter (λ c, Type_ c ≠ "dynamic")
     (AllBlocks (security_group []
        [dynamic_ingress; ingress_instance; ingress_instance; ingress_instance])).
Proof.
  exact (getChildBlocks_sublist
           (security_group []
              [dynamic_ingress; ingress_instance; ingress_instance; ingress_instance])
           [ingress_instance; ingress_instance] eq_refl).
Defined.

Lemma foldM_getChildBlocks_Ok (l : list Block) (st : dedupState) :
  (∃ st', foldM getChildBlocks_step st l = Ok st') ↔ templates_countable l = true.
Proof.
  revert st. induction l as [|block rest IH]; intros st; simpl.
  - split; [done|]. by eexists.
  - unfold getChildBlocks_step at 1, countable_template.
    destruct (decide (Type_ block = "dynamic")).
    + destruct (getForEachCount block) as [n|msg]; simpl; [apply IH|].
      split; [by intros [? ?]|done].
    + destruct (_ <=? _); simpl; [apply IH|]. destruct (_ <? _); apply IH.
Qed.

Lemma countable_template_iff (c : Block) :
  countable_template c = true ↔
  match ValueOf (GetAttribute c "for_each") with
  | CtyNull | CtyList _ | CtySet _ | CtyObject _ => True
  | _ => False
  end.
Proof.
  unfold countable_template, getForEachCount.
  destruct (ValueOf (GetAttribute c "for_each")); simpl; split; done.
Qed.

(** X6. getChildBlocks returns exactly when the [for_each] of every
    template among the descendants is missing, null or a collection; any
    other [for_each], an unknown value included, makes it panic. *)
Theorem getChildBlocks_returns_iff (b : Block) :
  (∃ cs, getChildBlocks b = Ok cs) ↔
  Forall (λ c, Type_ c = "dynamic" →
               match ValueOf (GetAttribute c "for_each") with
               | CtyNull | CtyList _ | CtySet _ | CtyObject _ => True
               | _ => False
               end) (AllBlocks b).
Proof.
  assert (Hcount : templates_countable (AllBlocks b) = true ↔
            Forall (λ c, Type_ c = "dynamic" →
               match ValueOf (GetAttribute c "for_each") with
               | CtyNull | CtyList _ | CtySet _ | CtyObject _ => True
               | _ => False
               end) (AllBlocks b)).
  { unfold templates_countable. rewrite <- Is_true_true, forallb_True.
    apply Forall_iff. intros c. destruct (decide (Type_ c = "dynamic")) as [Hty|Hty].
    - rewrite Is_true_true, countable_template_iff. tauto.
    - split; [done|]. by intros _. }
  rewrite <- Hcount.
  rewrite <- (foldM_getChildBlocks_Ok (AllBlocks b)
                {| expectedContentBlocks := 0; prevMaxEnd := 0; children := [] |}).
  unfold getChildBlocks. destruct (foldM _ _ _) as [st|msg]; simpl.
  - split; intros _; by eexists.
  - split; by intros [? ?].
Qed.

Lemma getChildBlocks_returns_iff_witness :
  (∃ cs, getChildBlocks (security_group [] [dynamic_ingress; ingress_instance]) = Ok cs) ∧
  ¬ (∃ cs, getChildBlocks (security_group [] [unknown_template; ingress_instance]) = Ok cs).
Proof.
  split.
  - apply (getChildBlocks_returns_iff (security_group [] [dynamic_ingress; ingress_instance])).
    repeat constructor; by intros _.
  - intros H.
    apply (getChildBlocks_returns_iff
             (security_group [] [unknown_template; ingress_instance])) in H.
    apply Forall_cons in H as [H _]. exact (H eq_refl).
Defined.

Lemma foldM_getChildBlocks_no_templates (l : list Block) (st : dedupState) :
  Forall (λ c, Type_ c ≠ "dynamic") l →
  min_int64 + Z.of_nat (length l) ≤ expectedContentBlocks st ≤ 0 →
  ∃ E p, foldM getChildBlocks_step st l =
           Ok {| expectedContentBlocks := E;
                 prevMaxEnd := p;
                 children := children st ++ disjoint_from (prevMaxEnd st) l |} ∧
         expectedContentBlocks st - Z.of_nat (length l) ≤ E ≤ expectedContentBlocks st.
Proof.
  intros Hall. revert st.
  induction Hall as [|c rest Hty _ IH]; intros [E p cs] HE; simpl in *.
  - exists E, p. rewrite app_nil_r. split; [done|lia].
  - unfold getChildBlocks_step at 1. simpl.
    destruct (decide (Type_ c = "dynamic")) as [|_]; [done|].
    destruct (Z.leb_spec p (GetStartLine (GetRange (GetMetadata c)))); simpl.
    + destruct (IH {| expectedContentBlocks := E;
                      prevMaxEnd := GetEndLine (GetRange (GetMetadata c));
                      children := cs ++ [c] |}) as (E' & p' & -> & HE'); [simpl; lia|].
      exists E', p'. simpl in *. rewrite <- app_assoc. split; [done|lia].
    + rewrite wrap64_small by (unfold min_int64, max_int64 in *; lia).
      destruct (Z.ltb_spec 0 (E - 1)); [lia|]. simpl.
      destruct (IH {| expectedContentBlocks := E - 1; prevMaxEnd := p; children := cs |})
        as (E' & p' & -> & HE'); [simpl; lia|].
      exists E', p'. simpl in *. split; [done|lia].
Qed.

(** X7. With no template among the descendants the expected count never
    becomes positive: the children are the blocks that start at or after
    the end of the child kept before them (the first at or after line 0),
    and every block that starts earlier is dropped.  The count is a Go
    int, so this holds for up to 2^63 descendants. *)
Theorem getChildBlocks_without_templates (b : Block) :
  Forall (λ c, Type_ c ≠ "dynamic") (AllBlocks b) →
  Z.of_nat (length (AllBlocks b)) ≤ 2 ^ 63 →
  getChildBlocks b = Ok (disjoint_from 0 (AllBlocks b)).
Proof.
  intros Hall Hlen. unfold getChildBlocks.
  destruct (foldM_getChildBlocks_no_templates (AllBlocks b)
              {| expectedContentBlocks := 0; prevMaxEnd := 0; children := [] |} Hall)
    as (E & p & -> & _); [|done].
  simpl. unfold min_int64. lia.
Qed.

Lemma getChildBlocks_without_templates_witness :
  getChildBlocks (security_group [] [ingress_instance; versioning; ingress_instance])
  = Ok [ingress_instance].
Proof.
  apply (getChildBlocks_without_templates
           (security_group [] [ingress_instance; versioning; ingress_instance])).
  - repeat constructor; discriminate.
  - vm_compute. discriminate.
Defined.

Lemma disjoint_from_all (p : Z) (l : list Block) :
  (∀ c rest, l = c :: rest → p ≤ GetStartLine (GetRange (GetMetadata c))) →
  (∀ pre c d post, l = pre ++ c :: d :: post →
     GetEndLine (GetRange (GetMetadata c)) ≤ GetStartLine (GetRange (GetMetadata d))) →
  disjoint_from p l = l.
Proof.
  revert p. induction l as [|c rest IH]; intros p Hfirst Hnext; simpl; [done|].
  destruct (Z.leb_spec p (GetStartLine (GetRange (GetMetadata c)))) as [_|Hlt].
  - f_equal. apply IH.
    + intros d post ->. apply (Hnext [] c d post eq_refl).
    + intros pre c' d post ->. apply (Hnext (c :: pre) c' d post eq_refl).
  - specialize (Hfirst c rest eq_refl). lia.
Qed.

(** X8. A block without templates whose descendants follow one another
    in the source, each starting at or after the end of the one before
    it, keeps all of them as children, in order. *)
Theorem getChildBlocks_keeps_separated (b : Block) :
  Forall (λ c, Type_ c ≠ "dynamic") (AllBlocks b) →
  Z.of_nat (length (AllBlocks b)) ≤ 2 ^ 63 →
  (∀ c rest, AllBlocks b = c :: rest → 0 ≤ GetStartLine (GetRange (GetMetadata c))) →
  (∀ pre c d post, AllBlocks b = pre ++ c :: d :: post →
     GetEndLine (GetRange (GetMetadata c)) ≤ GetStartLine (GetRange (GetMetadata d))) →
  getChildBlocks b = Ok (AllBlocks b).
Proof.
  intros Hall Hlen Hfirst Hnext. unfold getChildBlocks.
  destruct (foldM_getChildBlocks_no_templates (AllBlocks b)
              {| expectedContentBlocks := 0; prevMaxEnd := 0; children := [] |} Hall)
    as (E & p & -> & _).
  - simpl. unfold min_int64. lia.
  - simpl. by rewrite disjoint_from_all.
Qed.

Lemma getChildBlocks_keeps_separated_witness :
  getChildBlocks (security_group [] [versioning; ingress_instance])
  = Ok [versioning; ingress_instance].
Proof.
  apply (getChildBlocks_keeps_separated (security_group [] [versioning; ingress_instance])).
  - repeat constructor; discriminate.
  - vm_compute. discriminate.
  - intros c rest [= <- _]. simpl. lia.
  - intros [|? [|? pre]] c d post Heq; simpl in Heq.
    + injection Heq as <- <- _. simpl. lia.
    + injection Heq as _ _ Heq. discriminate Heq.
    + injection Heq as _ _ Heq. by destruct pre.
Defined.



(** ** Block Builder: when it returns *)

Lemma Block_size_descendant (b child : Block) :
  child ∈ AllBlocks b → (Block_size child < Block_size b)%nat.
Proof.
  destruct b as [? ? ? ? ? ? ? blocks ? ?]. simpl.
  induction 1 as [x l|x y l _ IH]; simpl; lia.
Qed.

Lemma tree_countable_unfold (b : Block) :
  tree_countable b = true →
  templates_countable (AllBlocks b) = true ∧
  ∀ c, c ∈ AllBlocks b → tree_countable c = true.
Proof.
  destruct b as [? ? ? ? ? ? ? blocks ? ?]. simpl. unfold templates_countable.
  induction blocks as [|c blocks IH]; simpl.
  - intros _. split; [done|]. intros c Hc. by apply elem_of_nil in Hc.
  - intros [[Hc Htree]%andb_prop Hrest]%andb_prop.
    destruct (IH Hrest) as [IH1 IH2]. rewrite Hc, IH1. split; [done|].
    intros c' [->|Hc']%elem_of_cons; [done|by apply IH2].
Qed.

Lemma mapM_returns {A B} (f : A → result B) (l : list A) :
  (∀ x, x ∈ l → ∃ y, f x = Ok y) → ∃ ys, mapM f l = Ok ys.
Proof.
  induction l as [|x l IH]; intros Hall; simpl; [by eexists|].
  destruct (Hall x) as [y ->]; [left|]. simpl.
  destruct IH as [ys ->]; [intros z Hz; apply Hall; by right|].
  simpl. by eexists.
Qed.

Lemma buildBlock_countable (order : MapOrder) (t : terraformConverter) (b : Block) :
  tree_countable b = true → ∃ json, buildBlock order t b = Ok json.
Proof.
  remember (Block_size b) as n eqn:Hn. revert b Hn.
  induction n as [n IH] using lt_wf_ind. intros b -> Htree.
  destruct (tree_countable_unfold b Htree) as [Hcount Hsub].
  destruct (proj2 (foldM_getChildBlocks_Ok (AllBlocks b)
              {| expectedContentBlocks := 0; prevMaxEnd := 0; children := [] |}) Hcount)
    as [st Hst].
  assert (Hcs : getChildBlocks b = Ok (children st)).
  { unfold getChildBlocks. by rewrite Hst. }
  assert (Hin : ∀ c, c ∈ children st → c ∈ AllBlocks b).
  { intros c Hc. destruct (foldM_getChildBlocks_sublist _ _ _ Hst) as (kept & Hkept & Hsl).
    simpl in Hkept. rewrite Hkept in Hc.
    by apply (elem_of_sublist _ _ _ Hc), list_elem_of_filter in Hsl as [_ ?]. }
  destruct (mapM_returns
              (λ child, json ←? buildBlock order t child ;; Ok (Type_ child, json))
              (children st)) as [built Hbuilt].
  { intros c Hc. destruct (IH (Block_size c)) with (b := c) as [json ->]; [|done| |].
    - apply Block_size_descendant. by apply Hin.
    - apply Hsub. by apply Hin.
    - simpl. by eexists. }
  rewrite buildBlock_eq, Hcs. simpl. rewrite Hbuilt. simpl. by eexists.
Qed.

(** X10. buildBlock returns a document for every block in whose tree the
    [for_each] of each template is missing, null or a collection: nothing
    else in a block, and nothing in the reference index, can make it
    panic. *)
Theorem buildBlock_returns (order : MapOrder) (t : terraformConverter) (b : Block) :
  tree_countable b = true → ∃ json, buildBlock order t b = Ok json.
Proof. apply buildBlock_countable. Qed.

Lemma buildBlock_returns_witness :
  ∃ json,
    buildBlock canonical_order after_bucket
      (security_group [ports_attribute]
         [dynamic_ingress; ingress_instance; ingress_instance; bare_template])
    = Ok json.
Proof.
  apply buildBlock_returns. vm_compute. reflexivity.
Defined.

(** ** Walker: what a walk leaves behind *)

Lemma visitBlocks_effect (order : MapOrder) (p : string) (bs : list Block)
    (st st' : conversion) :
  foldM (λ st b, visitBlock order b p st) st bs = Ok st' →
  converter st' = foldl (λ t b, register b t) (converter st) bs ∧
  logged st' = logged st
               ++ (unknown_type_line <$> filter (λ b, Type_ b ∉ visited_types) bs) ∧
  ∃ new, jsonOut st' = jsonOut st ++ new ∧
         Forall2 (emitted_for p) (filter (λ b, Type_ b ∈ visited_types) bs) new.
Proof.
  revert st. induction bs as [|b bs IH]; intros st H; simpl in H.
  - injection H as <-. split; [done|]. split; [by rewrite app_nil_r|].
    exists []. rewrite app_nil_r. split; [done|constructor].
  - destruct (visitBlock order b p st) as [st1|] eqn:Hv; simpl in H; [|done].
    destruct (IH _ H) as (Hconv & Hlog & new & Hout & Hnew). clear IH H.
    rewrite !filter_cons. cbn [foldl].
    rewrite (visitBlock_converter _ _ _ _ _ Hv) in Hconv.
    destruct (decide (Type_ b ∈ visited_types)) as [Hty|Hty].
    + destruct (visitBlock_visited _ _ _ _ _ Hty Hv) as (json & Hb & ->).
      simpl in *. destruct (decide (Type_ b ∉ visited_types)); [done|].
      split; [done|]. split; [done|]. eexists (_ :: new).
      rewrite <- app_assoc in Hout. split; [exact Hout|]. constructor; [|done].
      split; [done|]. simpl. rewrite lookup_insert_eq. simpl.
      by rewrite (proj1 (proj2 (proj2 (proj2 (top_meta_lookups order b p _))))).
    + unfold visitBlock in Hv. destruct (decide (Type_ b ∈ visited_types)); [done|].
      injection Hv as <-. simpl in *.
      destruct (decide (Type_ b ∉ visited_types)); [|done].
      split; [done|]. rewrite fmap_cons, <- app_assoc in *. split; [done|].
      by exists new.
Qed.

Lemma emitted_keys (p : string) (bs : list Block) (new : list (string * native)) :
  Forall2 (emitted_for p) bs new → new.*1 = top_key <$> bs.
Proof.
  induction 1 as [|b e bs es [He _] _ IHnew]; [done|].
  rewrite !fmap_cons. by rewrite He, IHnew.
Qed.

Lemma visitModules_effect (order : MapOrder) (ms : list Module) (st st' : conversion) :
  foldM (visitModule order) st ms = Ok st' →
  converter st' = foldl (λ t b, register b t) (converter st) (top_blocks ms) ∧
  logged st' = logged st
               ++ (unknown_type_line <$> filter (λ b, Type_ b ∉ visited_types) (top_blocks ms)) ∧
  (jsonOut st').*1 = (jsonOut st).*1
               ++ (top_key <$> filter (λ b, Type_ b ∈ visited_types) (top_blocks ms)).
Proof.
  revert st. induction ms as [|m ms IH]; intros st H; simpl in H.
  - injection H as <-. by rewrite !app_nil_r.
  - destruct (visitModule order st m) as [st1|] eqn:Hv; simpl in H; [|done].
    destruct (IH _ H) as (Hconv & Hlog & Hout). clear IH H.
    unfold visitModule in Hv.
    destruct (getModulePath order m) as [p|]; simpl in Hv; [|done].
    destruct (visitBlocks_effect _ _ _ _ _ Hv) as (Hconv1 & Hlog1 & new & Hout1 & Hnew).
    assert (Hkeys : new.*1
                    = top_key <$> filter (λ b, Type_ b ∈ visited_types) (GetBlocks m)).
    { by apply emitted_keys in Hnew. }
    change (top_blocks (m :: ms)) with (GetBlocks m ++ top_blocks ms).
    rewrite !filter_app, !fmap_app, foldl_app, !app_assoc.
    by rewrite Hconv, Hconv1, Hlog, Hlog1, Hout, Hout1, fmap_app, Hkeys.
Qed.

(** X11. When VisitJSON returns, the output holds one entry for each
    top-level block of a type it knows, in the order of the walk, under
    the type label for [data] and [resource] blocks and under the type for
    the others; and the log holds one line for each top-level block of any
    other type, which is left out of the output. *)
Theorem VisitJSON_output_shape (order : MapOrder) (t : terraformConverter)
    (st : conversion) :
  VisitJSON order t = Ok st →
  (jsonOut st).*1
  = top_key <$> filter (λ b, Type_ b ∈ visited_types) (top_blocks (modules t)) ∧
  logged st
  = unknown_type_line <$> filter (λ b, Type_ b ∉ visited_types) (top_blocks (modules t)).
Proof.
  intros H. destruct (visitModules_effect _ _ _ _ H) as (_ & Hlog & Hout). by split.
Qed.

Lemma register_all_lookup (bs : list Block) (t : terraformConverter) (r : string) :
  blocksByReference (foldl (λ t b, register b t) t bs) !! r
  = match last (filter (λ b, Reference b = r) bs) with
    | Some b => Some b
    | None => blocksByReference t !! r
    end.
Proof.
  revert t. induction bs as [|b bs IH]; intros t; simpl; [done|].
  rewrite IH, filter_cons. destruct (decide (Reference b = r)) as [Hr|Hr].
  - rewrite last_cons. destruct (last (filter _ bs)); [done|].
    simpl. by rewrite <- Hr, lookup_insert_eq.
  - destruct (last (filter _ bs)); [done|]. simpl. by rewrite lookup_insert_ne.
Qed.

(** X12. When VisitJSON returns, the reference index holds under every
    reference string the last top-level block of the walk that has it,
    whatever the type of that block: a block of an unknown type is entered
    too, and a later block replaces an earlier one with the same string. *)
Theorem VisitJSON_final_index (order : MapOrder) (ms : list Module) (st : conversion) :
  VisitJSON order (NewTerraformConverter ms) = Ok st →
  ∀ r, blocksByReference (converter st) !! r
       = last (filter (λ b, Reference b = r) (top_blocks ms)).
Proof.
  intros H r. destruct (visitModules_effect _ _ _ _ H) as (Hconv & _ & _).
  rewrite Hconv. simpl. rewrite register_all_lookup. simpl. rewrite lookup_empty.
  by destruct (last _).
Qed.

Lemma VisitJSON_output_shape_witness :
  ∃ st, VisitJSON canonical_order (NewTerraformConverter module_with_check) = Ok st ∧
        (jsonOut st).*1 = ["variable"; "aws_s3_bucket"] ∧
        logged st = ["unknown block type: check"].
Proof.
  destruct (VisitJSON canonical_order (NewTerraformConverter module_with_check))
    as [st|msg] eqn:H; [|by vm_compute in H].
  exists st. split; [done|].
  exact (VisitJSON_output_shape canonical_order (NewTerraformConverter module_with_check)
           st H).
Defined.

Lemma VisitJSON_final_index_witness :
  ∃ st, VisitJSON canonical_order (NewTerraformConverter two_modules) = Ok st ∧
        blocksByReference (converter st) !! "variable.name"
        = Some (variable_name "id-child") ∧
        blocksByReference (converter st) !! "variable.other" = None.
Proof.
  destruct (VisitJSON canonical_order (NewTerraformConverter two_modules))
    as [st|msg] eqn:H; [|by vm_compute in H].
  exists st. split; [done|]. split.
  - exact (VisitJSON_final_index canonical_order two_modules st H "variable.name").
  - exact (VisitJSON_final_index canonical_order two_modules st H "variable.other").
Defined.

(** X13. visitModule makes the path of the module the parent path of all
    its blocks: every entry it appends holds in its metadata the path
    getPath gives the block under the module's path.  A module whose path
    cannot be determined appends nothing. *)
Theorem visitModule_paths (order : MapOrder) (m : Module) (st st' : conversion) :
  visitModule order st m = Ok st' →
  ∃ p new,
    getModulePath order m = Ok p ∧
    jsonOut st' = jsonOut st ++ new ∧
    Forall2 (emitted_for p) (filter (λ b, Type_ b ∈ visited_types) (GetBlocks m)) new.
Proof.
  unfold visitModule. destruct (getModulePath order m) as [p|]; simpl; [|done].
  intros H. destruct (visitBlocks_effect _ _ _ _ _ H) as (_ & _ & new & Hout & Hnew).
  by exists p, new.
Qed.

Lemma visitModule_paths_witness :
  ∃ st' new,
    visitModule canonical_order
      {| converter := NewTerraformConverter []; jsonOut := []; logged := [] |}
      {| GetBlocks := [bucket_in (module_call "infra" None)] |} = Ok st' ∧
    jsonOut st' = new ∧
    Forall2 (emitted_for "module.infra") [bucket_in (module_call "infra" None)] new ∧
    getPath (bucket_in (module_call "infra" None)) "module.infra"
    = "module.infra.aws_s3_bucket.main".
Proof.
  destruct (visitModule canonical_order
              {| converter := NewTerraformConverter []; jsonOut := []; logged := [] |}
              {| GetBlocks := [bucket_in (module_call "infra" None)] |})
    as [st'|msg] eqn:H; [|by vm_compute in H].
  destruct (visitModule_paths _ _ _ _ H) as (p & new & Hp & Hout & Hnew).
  exists st', new. split; [done|]. split; [done|]. split; [|done].
  assert (p = "module.infra") as -> by (vm_compute in Hp; congruence).
  exact Hnew.
Defined.

Lemma getModulePath_returns (order : MapOrder) (m : Module) :
  (∀ n1 n2, n1 ∈ module_names m → n2 ∈ module_names m → n1 = n2) →
  ∃ p, getModulePath order m = Ok p.
Proof.
  intros Hsame.
  pose proof (range_keys_NoDup order (prefixes_of (GetBlocks m) ∅)) as Hnd.
  pose proof (module_names_prefixes order m) as Hkeys.
  rewrite getModulePath_eq. simpl.
  destruct (range_keys order (prefixes_of (GetBlocks m) ∅)) as [|k1 [|k2 keys]];
    [by eexists| |].
  - rewrite decide_False by (simpl; lia). by eexists.
  - exfalso. apply NoDup_cons in Hnd as [Hk1 _]. apply Hk1.
    rewrite (Hsame k1 k2); [left| |]; apply Hkeys; [left|right; left].
Qed.

Lemma foldM_returns {A S} (I : S → Prop) (step : S → A → result S) (l : list A) (s : S) :
  I s →
  (∀ s x, I s → x ∈ l → ∃ s', step s x = Ok s' ∧ I s') →
  ∃ s', foldM step s l = Ok s' ∧ I s'.
Proof.
  revert s. induction l as [|x l IH]; intros s Hs Hstep; simpl; [by exists s|].
  destruct (Hstep s x Hs) as (s1 & -> & Hs1); [left|]. simpl.
  apply IH; [done|]. intros s2 y Hs2 Hy. apply Hstep; [done|by right].
Qed.

(** X14. VisitJSON returns for every converter in which the root blocks
    of each module agree on their enclosing module name, and in which
    the templates in the trees of the top-level blocks of known types
    all have a [for_each] that is missing, null or a collection. *)
Theorem VisitJSON_returns (order : MapOrder) (t : terraformConverter) :
  (∀ m n1 n2, m ∈ modules t → n1 ∈ module_names m → n2 ∈ module_names m → n1 = n2) →
  (∀ b, b ∈ top_blocks (modules t) → Type_ b ∈ visited_types → tree_countable b = true) →
  ∃ st, VisitJSON order t = Ok st.
Proof.
  intros Hnames Htrees. unfold VisitJSON.
  destruct (foldM_returns (λ _, True) (visitModule order) (modules t)
              {| converter := t; jsonOut := []; logged := [] |} I) as (st & Hst & _);
    [|by exists st].
  intros s m _ Hm. unfold visitModule.
  destruct (getModulePath_returns order m) as [p ->]; [intros n1 n2; by apply Hnames|]. simpl.
  destruct (foldM_returns (λ _, True) (λ st b, visitBlock order b p st) (GetBlocks m) s I)
    as (s' & Hs' & _); [|by exists s'].
  intros s1 b _ Hb. unfold visitBlock.
  destruct (decide (Type_ b ∈ visited_types)) as [Hty|Hty]; [|by eexists].
  destruct (buildBlock_countable order
              {| modules := modules (converter s1);
                 blocksByReference := <[Reference b := b]> (blocksByReference (converter s1)) |}
              b) as [json Hjson].
  { apply Htrees; [|done]. unfold top_blocks. apply list_elem_of_bind. by exists m. }
  rewrite Hjson. simpl.
  destruct (buildBlock_Ok_inv _ _ _ _ Hjson) as (cs & built & _ & _ & ->).
  rewrite buildBlock_body_tfmeta. destruct (decide _); by eexists.
Qed.

Lemma VisitJSON_returns_witness :
  ∃ st, VisitJSON canonical_order (NewTerraformConverter module_with_check) = Ok st.
Proof.
  apply VisitJSON_returns.
  - intros m n1 n2 Hm Hn1. apply list_elem_of_singleton in Hm as ->.
    by apply elem_of_nil in Hn1.
  - intros b Hb _. simpl in Hb.
    repeat (apply elem_of_cons in Hb as [->|Hb]; [reflexivity|]).
    by apply elem_of_nil in Hb.
Defined.

(** ** Module names *)

Lemma string_app_assoc (s1 s2 s3 : string) : (s1 +:+ s2) +:+ s3 = s1 +:+ s2 +:+ s3.
Proof.
  induction s1 as [|c s1 IH]; [done|].
  change (String c ((s1 +:+ s2) +:+ s3) = String c (s1 +:+ s2 +:+ s3)). by f_equal.
Qed.

Lemma string_app_empty (s1 s2 : string) : s1 +:+ s2 = "" → s1 = "" ∧ s2 = "".
Proof. by destruct s1. Qed.

Lemma concat_snoc (sep : string) (l : list string) (x : string) :
  l ≠ [] → String.concat sep (l ++ [x]) = String.concat sep l +:+ sep +:+ x.
Proof.
  induction l as [|y l IH]; [done|]. intros _. destruct l as [|z l]; [done|].
  change (String.concat sep ((y :: z :: l) ++ [x]))
    with (y +:+ sep +:+ String.concat sep ((z :: l) ++ [x])).
  rewrite IH by done.
  change (String.concat sep (y :: z :: l)) with (y +:+ sep +:+ String.concat sep (z :: l)).
  by rewrite !string_app_assoc.
Qed.

Lemma concat_nonempty (sep : string) (l : list string) :
  l ≠ [] → Forall (λ s, s ≠ "") l → String.concat sep l ≠ "".
Proof.
  destruct l as [|x l]; [done|]. intros _ Hall. apply Forall_cons in Hall as [Hx _].
  destruct l; simpl; [done|]. intros H. by apply string_app_empty in H as [? _].
Qed.

(** X15. getModuleName joins with dots the local names of the module
    inclusions that enclose the block, outermost first, when none of
    these names is empty; it is empty for a block of the root module. *)
Theorem getModuleName_chain (b : Block) :
  Forall (λ m, LocalName m ≠ "") (module_chain b) →
  getModuleName b = String.concat "." (LocalName <$> module_chain b).
Proof.
  revert b. fix IH 1. intros b. destruct b as [? ? ? ? ? ? ? ? ? [mb|]]; simpl; [|done].
  intros Hall. apply Forall_app in Hall as [Hchain _]. rewrite (IH mb Hchain), fmap_app. simpl.
  destruct (module_chain mb) as [|m chain] eqn:E.
  - done.
  - rewrite decide_False.
    + by rewrite concat_snoc.
    + apply concat_nonempty; [done|]. by apply Forall_fmap.
Qed.

Lemma getModuleName_chain_witness :
  getModuleName (bucket_in (module_call "storage" (Some (module_call "infra" None))))
  = "module.infra.module.storage".
Proof.
  rewrite getModuleName_chain; [reflexivity|].
  repeat constructor; discriminate.
Defined.

(** ** Block Builder: the keys of a document *)

Lemma add_dom (collection : gmap string (list native)) (key : string) (value : native) :
  dom (add collection key value) = {[key]} ∪ dom collection.
Proof.
  apply set_eq. intros k.
  rewrite elem_of_union, elem_of_singleton, !elem_of_dom, add_lookup.
  destruct (decide (key = k)) as [->|Hne].
  - split; [by left|by eexists].
  - split; [by right|]. by intros [->|].
Qed.

Lemma collect_dom (built : list (string * gmap string native))
    (collection : gmap string (list native)) :
  dom (foldl (λ c kv, add c kv.1 (NMap kv.2)) collection built)
  = dom collection ∪ list_to_set built.*1.
Proof.
  revert collection. induction built as [|[key json] built IH]; intros collection.
  - simpl. by rewrite (right_id_L ∅ (∪)).
  - cbn [foldl]. rewrite IH, add_dom, fmap_cons, list_to_set_cons. simpl.
    apply set_eq. intros k. rewrite !elem_of_union. tauto.
Qed.

Lemma attribute_loop_dom (b : Block) (attrs : list Attribute) (obj : gmap string native)
    (refs : gmap string bool) :
  dom (foldl (buildBlock_attribute b) (obj, refs) attrs).1
  = dom obj ∪ list_to_set (Name <$> attrs).
Proof.
  revert obj refs. induction attrs as [|a attrs IH]; intros obj refs; cbn [foldl].
  - simpl. by rewrite (right_id_L ∅ (∪)).
  - rewrite buildBlock_attribute_eq, IH, dom_insert_L, fmap_cons, list_to_set_cons.
    apply set_eq. intros k. rewrite !elem_of_union. tauto.
Qed.

Lemma mapM_built_types (order : MapOrder) (t : terraformConverter) (cs : list Block)
    (built : list (string * gmap string native)) :
  mapM (λ child, json ←? buildBlock order t child ;; Ok (Type_ child, json)) cs = Ok built →
  built.*1 = Type_ <$> cs.
Proof.
  revert built. induction cs as [|c cs IH]; intros built H; simpl in H.
  - by injection H as <-.
  - destruct (buildBlock order t c) as [json|]; simpl in H; [|done].
    destruct (mapM _ cs) as [rest|]; simpl in H; [|done].
    injection H as <-. rewrite !fmap_cons. simpl. by rewrite (IH rest).
Qed.

(** X16. The keys of the document buildBlock returns are the types of the
    children getChildBlocks keeps, the names of the attributes, [id] when
    the block has an identifier, and [__tfmeta]; there is no other key. *)
Theorem buildBlock_key_set (order : MapOrder) (t : terraformConverter) (b : Block)
    (json : gmap string native) :
  buildBlock order t b = Ok json →
  ∃ cs, getChildBlocks b = Ok cs ∧
        dom json = list_to_set (Type_ <$> cs)
                   ∪ list_to_set (Name <$> GetAttributes b)
                   ∪ (if decide (ID b = "") then ∅ else {["id"]})
                   ∪ {["__tfmeta"]}.
Proof.
  intros H. destruct (buildBlock_Ok_inv _ _ _ _ H) as (cs & built & Hcs & Hbuilt & ->).
  exists cs. split; [done|]. apply mapM_built_types in Hbuilt. rewrite <- Hbuilt.
  unfold buildBlock_body.
  pose proof (attribute_loop_dom b (GetAttributes b)
    (dump (foldl (λ c kv, add c kv.1 (NMap kv.2)) ∅ built) ∪ ∅) ∅) as Hloop.
  destruct (foldl (buildBlock_attribute b) _ (GetAttributes b)) as [obj refs].
  simpl in Hloop. rewrite dom_insert_L.
  assert (Hid : dom (if decide (ID b = "") then obj else <["id" := NString (ID b)]> obj)
                = dom obj ∪ (if decide (ID b = "") then ∅ else {["id"]})).
  { destruct (decide (ID b = "")); [by rewrite (right_id_L ∅ (∪))|].
    rewrite dom_insert_L. apply set_eq. intros k. rewrite !elem_of_union. tauto. }
  rewrite Hid, Hloop, (right_id_L ∅ (∪)). unfold dump.
  rewrite dom_fmap_L, collect_dom, dom_empty_L, (left_id_L ∅ (∪)).
  apply set_eq. intros k. rewrite !elem_of_union. tauto.
Qed.

Lemma buildBlock_key_set_witness :
  ∃ json,
    buildBlock canonical_order (NewTerraformConverter []) bucket_with_id_attribute
    = Ok json ∧
    dom json = {["versioning"; "id"; "acl"; "__tfmeta"]}.
Proof.
  destruct (buildBlock canonical_order (NewTerraformConverter []) bucket_with_id_attribute)
    as [json|msg] eqn:H; [|by vm_compute in H].
  exists json. split; [done|].
  destruct (buildBlock_key_set _ _ _ _ H) as (cs & Hcs & ->).
  assert (Hkept : getChildBlocks bucket_with_id_attribute = Ok [versioning])
    by (vm_compute; reflexivity).
  rewrite Hkept in Hcs. injection Hcs as <-.
  vm_compute. reflexivity.
Defined.

(** X17. A block with an identifier has it under [id], whatever attribute
    or child would be stored under that key: the identifier is written
    after them. *)
Theorem buildBlock_id_precedence (order : MapOrder) (t : terraformConverter) (b : Block)
    (json : gmap string native) :
  buildBlock order t b = Ok json →
  ID b ≠ "" →
  json !! "id" = Some (NString (ID b)).
Proof.
  intros H Hid. destruct (buildBlock_Ok_inv _ _ _ _ H) as (cs & built & _ & _ & ->).
  unfold buildBlock_body.
  destruct (foldl (buildBlock_attribute b) _ (GetAttributes b)) as [obj refs].
  rewrite lookup_insert_ne by done. rewrite decide_False by done.
  apply lookup_insert_eq.
Qed.

Lemma buildBlock_id_precedence_witness :
  ∃ json,
    buildBlock canonical_order (NewTerraformConverter []) bucket_with_id_attribute
    = Ok json ∧
    json !! "id" = Some (NString "id-main").
Proof.
  destruct (buildBlock canonical_order (NewTerraformConverter []) bucket_with_id_attribute)
    as [json|msg] eqn:H; [|by vm_compute in H].
  exists json. split; [done|].
  apply (buildBlock_id_precedence _ _ _ _ H). discriminate.
Defined.

(** X18. The [type] attribute of a [variable] block is stored as the
    friendly name of the decoded type, whatever the attribute's value
    converts to. *)
Theorem variable_type_friendly_name (order : MapOrder) (t : terraformConverter)
    (b : Block) (a : Attribute) (json : gmap string native) :
  buildBlock order t b = Ok json →
  Type_ b = "variable" →
  NoDup (Name <$> GetAttributes b) →
  a ∈ GetAttributes b →
  Name a = "type" →
  json !! "type" = Some (NString (VarTypeFriendlyName a)).
Proof.
  intros H Hty Hnd Ha Hname.
  destruct (buildBlock_Ok_inv _ _ _ _ H) as (cs & built & _ & _ & ->).
  rewrite <- Hname, buildBlock_body_attribute; [|done|done|].
  - unfold attribute_value. by rewrite decide_True.
  - unfold reserved_key. rewrite Hname. intros [[? _]|?]; done.
Qed.

Lemma variable_type_friendly_name_witness :
  ∃ json,
    buildBlock canonical_order (NewTerraformConverter []) typed_variable = Ok json ∧
    json !! "type" = Some (NString "list of number").
Proof.
  destruct (buildBlock canonical_order (NewTerraformConverter []) typed_variable)
    as [json|msg] eqn:H; [|by vm_compute in H].
  exists json. split; [done|].
  apply (variable_type_friendly_name _ _ typed_variable
           {| Name := "type"; Value := CtyNull; GetRawValue := NString "list(number)";
              VarTypeFriendlyName := "list of number"; AllReferences := [] |} _ H).
  - reflexivity.
  - repeat constructor. by intros ?%elem_of_nil.
  - left.
  - reflexivity.
Defined.

(** X19. A block none of whose attributes holds a reference has no
    [references] in its metadata, whatever the reference index holds. *)
Theorem no_references_no_key (order : MapOrder) (t : terraformConverter) (b : Block)
    (json : gmap string native) :
  buildBlock order t b = Ok json →
  Forall (λ a, AllReferences a = []) (GetAttributes b) →
  dig ["__tfmeta"; "references"] (NMap json) = None.
Proof.
  intros H Hrefs. destruct (buildBlock_Ok_inv _ _ _ _ H) as (cs & built & _ & _ & ->).
  simpl. rewrite buildBlock_body_tfmeta. simpl.
  destruct (block_meta_lookups order t b) as (_ & _ & _ & _ & _ & _ & ->).
  assert (Hnone : allRefs_of b = ∅).
  { unfold allRefs_of. generalize (∅ : gmap string bool).
    induction Hrefs as [|a attrs Ha _ IH]; intros s; cbn [foldl]; [done|].
    rewrite Ha. apply IH. }
  rewrite Hnone. unfold Entries.
  assert (Hkeys : range_keys order (∅ : gmap string bool) = []).
  { apply Permutation_nil_r. rewrite (range_keys_perm order). by rewrite map_to_list_empty. }
  by rewrite Hkeys, map_size_empty.
Qed.

Lemma no_references_no_key_witness :
  ∃ json,
    buildBlock canonical_order
      (register (mkBlock "resource" "x" "y" "id-empty" "" "y" [] []
                   (at_lines 1 2 "x.y") None)
         (NewTerraformConverter [])) bucket_with_id_attribute = Ok json ∧
    dig ["__tfmeta"; "references"] (NMap json) = None.
Proof.
  destruct (buildBlock canonical_order
              (register (mkBlock "resource" "x" "y" "id-empty" "" "y" [] []
                           (at_lines 1 2 "x.y") None)
                 (NewTerraformConverter [])) bucket_with_id_attribute)
    as [json|msg] eqn:H; [|by vm_compute in H].
  exists json. split; [done|].
  apply (no_references_no_key _ _ _ _ H). by repeat constructor.
Defined.

(** ** Walker: the index a block is built against *)

Lemma emitted_length (p : string) (bs : list Block) (new : list (string * native)) :
  Forall2 (emitted_for p) bs new → length new = length bs.
Proof. intros H. symmetry. by eapply Forall2_length. Qed.

Lemma visitBlocks_entry (order : MapOrder) (p : string) (pre post : list Block)
    (A : Block) (st st' : conversion) :
  foldM (λ st b, visitBlock order b p st) st (pre ++ A :: post) = Ok st' →
  Type_ A ∈ visited_types →
  ∃ json,
    buildBlock order (foldl (λ t b, register b t) (converter st) (pre ++ [A])) A = Ok json ∧
    jsonOut st' !! (length (jsonOut st)
                    + length (filter (λ b, Type_ b ∈ visited_types) pre))%nat
    = Some (top_key A,
            NMap (<["__tfmeta" :=
                     NMap (top_meta order
                             (foldl (λ t b, register b t) (converter st) (pre ++ [A]))
                             A p)]> json)).
Proof.
  intros H Hty. rewrite foldM_app in H.
  destruct (foldM _ st pre) as [st1|] eqn:Hpre; simpl in H; [|done].
  destruct (visitBlock order A p st1) as [st2|] eqn:HA; simpl in H; [|done].
  destruct (visitBlocks_effect _ _ _ _ _ Hpre) as (Hconv & _ & new & Hout & Hnew).
  destruct (visitBlocks_effect _ _ _ _ _ H) as (_ & _ & new' & Hout' & _).
  destruct (visitBlock_visited _ _ _ _ _ Hty HA) as (json & Hjson & ->).
  simpl in Hout'. rewrite foldl_app. cbn [foldl]. rewrite <- Hconv.
  exists json. split; [done|].
  rewrite Hout', Hout, <- (emitted_length _ _ _ Hnew), <- length_app.
  rewrite <- app_assoc. by apply list_lookup_middle.
Qed.

(** X20. Each block is built against the index as the walk has filled it
    so far.  When VisitJSON returns, the entry of a top-level block of a
    known type stands in the output after those of the blocks before it;
    it is the document buildBlock returns for the block in the converter
    that holds the blocks up to and including this one, with [path] (and
    [type]) added to its metadata.  That index resolves a reference string
    to the last of these blocks that has it: a block that the walk reaches
    later is not seen. *)
Theorem VisitJSON_entry (order : MapOrder) (ms1 ms2 : list Module) (m : Module)
    (pre post : list Block) (A : Block) (st : conversion) :
  VisitJSON order (NewTerraformConverter (ms1 ++ m :: ms2)) = Ok st →
  GetBlocks m = pre ++ A :: post →
  Type_ A ∈ visited_types →
  let earlier := top_blocks ms1 ++ pre in
  let t := foldl (λ t b, register b t) (NewTerraformConverter (ms1 ++ m :: ms2))
             (earlier ++ [A]) in
  ∃ p json,
    getModulePath order m = Ok p ∧
    buildBlock order t A = Ok json ∧
    jsonOut st !! length (filter (λ b, Type_ b ∈ visited_types) earlier)
    = Some (top_key A, NMap (<["__tfmeta" := NMap (top_meta order t A p)]> json)) ∧
    ∀ r, blocksByReference t !! r = last (filter (λ b, Reference b = r) (earlier ++ [A])).
Proof.
  intros H Hm Hty earlier t. unfold VisitJSON in H. simpl in H.
  rewrite foldM_app in H.
  destruct (foldM _ _ ms1) as [st1|] eqn:H1; simpl in H; [|done].
  destruct (visitModule order st1 m) as [st2|] eqn:Hv; simpl in H; [|done].
  destruct (visitModules_effect _ _ _ _ H1) as (Hconv1 & _ & Hout1).
  destruct (visitModules_effect _ _ _ _ H) as (_ & _ & Hout2).
  unfold visitModule in Hv.
  destruct (getModulePath order m) as [p|]; simpl in Hv; [|done].
  rewrite Hm in Hv.
  destruct (visitBlocks_entry _ _ _ _ _ _ _ Hv Hty) as (json & Hjson & Hentry).
  simpl in Hconv1, Hout1.
  assert (Ht : foldl (λ t b, register b t) (converter st1) (pre ++ [A]) = t).
  { unfold t, earlier. rewrite Hconv1, <- app_assoc. symmetry. apply foldl_app. }
  rewrite Ht in Hjson, Hentry.
  exists p, json. split; [done|]. split; [done|]. split.
  - assert (Hlen : length (jsonOut st1)
                   = length (filter (λ b, Type_ b ∈ visited_types) (top_blocks ms1))).
    { rewrite <- (length_fmap fst (jsonOut st1)), Hout1. apply length_fmap. }
    rewrite Hlen in Hentry. unfold earlier. rewrite filter_app, length_app.
    destruct (visitBlocks_effect _ _ _ _ _ Hv) as (_ & _ & new & Hnew & _).
    clear - H Hentry.
    assert (Hext : ∃ more, jsonOut st = jsonOut st2 ++ more).
    { clear Hentry. revert st2 H. induction ms2 as [|m' ms2 IH]; intros st2 H; simpl in H.
      - injection H as <-. exists []. by rewrite app_nil_r.
      - destruct (visitModule order st2 m') as [st3|] eqn:Hv; simpl in H; [|done].
        destruct (IH _ H) as [more ->]. unfold visitModule in Hv.
        destruct (getModulePath order m'); simpl in Hv; [|done].
        destruct (visitBlocks_effect _ _ _ _ _ Hv) as (_ & _ & new & -> & _).
        exists (new ++ more). by rewrite app_assoc. }
    destruct Hext as [more ->]. by apply lookup_app_l_Some.
  - intros r. unfold t. rewrite register_all_lookup. simpl. rewrite lookup_empty.
    by destruct (last _).
Qed.

Lemma VisitJSON_entry_witness :
  ∃ st entry,
    VisitJSON canonical_order (NewTerraformConverter policy_before_bucket) = Ok st ∧
    jsonOut st !! 0%nat = Some entry ∧
    entry.1 = "aws_s3_bucket_policy" ∧
    dig ["__tfmeta"; "references"] entry.2 = None.
Proof.
  destruct (VisitJSON canonical_order (NewTerraformConverter policy_before_bucket))
    as [st|msg] eqn:H; [|by vm_compute in H].
  destruct (VisitJSON_entry canonical_order [] []
              {| GetBlocks := [bucket_policy; s3_bucket_main] |}
              [] [s3_bucket_main] bucket_policy st H)
    as (p & json & _ & _ & Hentry & _).
  - reflexivity.
  - vm_compute. do 8 right. left.
  - eexists st, _. split; [done|]. split; [exact Hentry|]. split; [reflexivity|].
    simpl. rewrite lookup_insert_eq. simpl.
    destruct (top_meta_lookups canonical_order bucket_policy p
                (foldl (λ t b, register b t) (NewTerraformConverter policy_before_bucket)
                   ((top_blocks [] ++ []) ++ [bucket_policy])))
      as (_ & _ & _ & _ & _ & _ & Hrefs).
    etransitivity; [exact Hrefs|]. vm_compute. reflexivity.
Defined.

(** ** getAttributeValue *)

(** X21. The fall-back to the raw value is all or nothing: an attribute
    is returned converted when its value holds no set and no opaque value
    at any depth, and as its raw value otherwise, even when only one
    element deep inside the value is rejected. *)
Theorem getAttributeValue_all_or_nothing (a : Attribute) :
  getAttributeValue a
  = if supported (Value a) then (convertCtyToNativeValue (Value a)).1 else GetRawValue a.
Proof.
  unfold getAttributeValue.
  rewrite <- (proj1 (convert_ok_supported (Value a))).
  by destruct (convertCtyToNativeValue (Value a)) as [raw [|]].
Qed.
